(** * LogisFit service worker (static/sw.js): caching proxy, lifecycle and
      offline page.

    The worker's three event listeners (install, activate, fetch) and its two
    strategy functions (cacheFirst, networkFirst) are embedded as computations
    in a small monad [SW] that threads the origin's CacheStorage, lets a
    promise reject, and records every platform call that is made.

    Modelling choices, fixed here once:
    - [await] is sequential composition; a promise that rejects is the
      [Rejected] outcome, and [try { } catch { }] is [try_catch].
    - [cache.put(...)] in the two strategies is not awaited in the source:
      its outcome, fulfilled or rejected, is dropped ([unawaited]); the model
      lets it complete before the handler returns (the interleaving with
      other tasks is not represented).
    - The CacheStorage is the list of the origin's caches in creation order,
      because [caches.match] searches them in that order. A cache is keyed
      by request URL: the worker stores and looks up GET requests only, and
      [Vary] headers are not represented.
    - [cache.put] and [cache.addAll] refuse, with a rejected promise, a
      partial (206) response and a response whose [Vary] header lists [*];
      otherwise [cache.put] is insertion. Quota errors are not represented.
    - The network is an oracle from requests to fetch outcomes, supplied per
      event, so that consecutive events may see different networks. *)

From stdpp Require Import gmap strings list fin_maps.
From Stdlib Require Import ZArith Ascii.

Open Scope string_scope.
Open Scope list_scope.
Open Scope Z_scope.

(** ** Requests, responses, cache storage *)

(** The parts of [new URL(request.url)] the worker looks at, plus the query
    string, which is part of a cache key. *)
Record URL := mkURL {
  hostname : string;
  pathname : string;
  search : string
}.

Record Request := mkRequest {
  method : string;
  url : URL
}.

Record Response := mkResponse {
  status : Z;
  headers : list (string * string);
  body : string
}.

#[global] Instance URL_eq_dec : EqDecision URL.
Proof. solve_decision. Defined.

#[global] Instance URL_countable : Countable URL.
Proof.
  refine (inj_countable' (λ u, (hostname u, pathname u, search u))
                         (λ t, mkURL t.1.1 t.1.2 t.2) _).
  by intros [].
Defined.

#[global] Instance Request_eq_dec : EqDecision Request.
Proof. solve_decision. Defined.

#[global] Instance Response_eq_dec : EqDecision Response.
Proof. solve_decision. Defined.

(** [response.ok]: the status is in the range 200-299. *)
Definition ok (r : Response) : bool :=
  (200 <=? status r) && (status r <=? 299).

(** Header names compare without regard to case. *)
Definition lower_ascii (c : ascii) : ascii :=
  let n := nat_of_ascii c in
  if ((65 <=? n) && (n <=? 90))%nat then ascii_of_nat (n + 32) else c.

Fixpoint lowercase (s : string) : string :=
  match s with
  | EmptyString => EmptyString
  | String c rest => String (lower_ascii c) (lowercase rest)
  end.

(** The values of a header field: the pieces between commas, without the
    spaces and tabs around them. *)
Definition is_ows (c : ascii) : bool :=
  (nat_of_ascii c =? 32)%nat || (nat_of_ascii c =? 9)%nat.

Fixpoint split_commas (s : string) : list string :=
  match s with
  | EmptyString => [EmptyString]
  | String c rest =>
      if (nat_of_ascii c =? 44)%nat then EmptyString :: split_commas rest
      else match split_commas rest with
           | piece :: pieces => String c piece :: pieces
           | [] => [String c EmptyString]
           end
  end.

Fixpoint strip_leading_ows (s : string) : string :=
  match s with
  | EmptyString => EmptyString
  | String c rest => if is_ows c then strip_leading_ows rest else s
  end.

Fixpoint strip_trailing_ows (s : string) : string :=
  match s with
  | EmptyString => EmptyString
  | String c rest =>
      match strip_trailing_ows rest with
      | EmptyString => if is_ows c then EmptyString else String c EmptyString
      | String d t => String c (String d t)
      end
  end.

Definition strip_ows (s : string) : string :=
  strip_trailing_ows (strip_leading_ows s).

(** The response has a [Vary] header that lists [*]. *)
Definition vary_star (r : Response) : bool :=
  existsb
    (λ h, String.eqb (lowercase h.1) "vary" &&
          existsb (λ v, String.eqb (strip_ows v) "*") (split_commas h.2))
    (headers r).

(** The responses [cache.put] and [cache.addAll] accept: any but a partial
    (206) response and a response that varies on [*]. *)
Definition storable (r : Response) : bool :=
  negb (status r =? 206) && negb (vary_star r).

(** The optional second argument of [new Response(body, init)]. *)
Record ResponseInit := mkInit {
  init_status : option Z;
  init_headers : list (string * string)
}.

(** [new Response(body, init)]: the status is 200 unless [init] gives one. *)
Definition new_Response (b : string) (init : ResponseInit) : Response :=
  {| status := default 200 (init_status init);
     headers := init_headers init;
     body := b |}.

(** One cache is a map from request URLs to stored responses (the worker
    only ever stores and looks up GET requests); the storage is the list of
    named caches, oldest first. *)
Definition CacheStorage : Type := list (string * gmap URL Response).

(** [caches.match(request)]: the first hit, searching caches in creation
    order. *)
Fixpoint storage_match (k : URL) (st : CacheStorage) : option Response :=
  match st with
  | [] => None
  | (_, c) :: rest =>
      match c !! k with
      | Some r => Some r
      | None => storage_match k rest
      end
  end.

(** [caches.has(name)]. *)
Definition storage_has (name : string) (st : CacheStorage) : bool :=
  existsb (λ g, String.eqb (fst g) name) st.

(** [caches.open(name)]: the cache is created, last in order, when there is
    none of that name. *)
Definition storage_open (name : string) (st : CacheStorage) : CacheStorage :=
  if storage_has name st then st else st ++ [(name, ∅)].

(** The cache called [name], when there is one. *)
Fixpoint storage_get (name : string) (st : CacheStorage) : option (gmap URL Response) :=
  match st with
  | [] => None
  | (n, c) :: rest => if String.eqb n name then Some c else storage_get name rest
  end.

(** [cache.put(request, response)] on the cache called [name]: the entry for
    the request's URL is added or overwritten. *)
Fixpoint storage_put (name : string) (k : URL) (r : Response) (st : CacheStorage)
  : CacheStorage :=
  match st with
  | [] => []
  | (n, c) :: rest =>
      if String.eqb n name then (n, <[k := r]> c) :: rest
      else (n, c) :: storage_put name k r rest
  end.

(** [caches.delete(name)]. *)
Definition storage_delete (name : string) (st : CacheStorage) : CacheStorage :=
  List.filter (λ g, negb (String.eqb (fst g) name)) st.

(** [caches.keys()]: the names, in creation order. *)
Definition storage_keys (st : CacheStorage) : list string := map fst st.

(** ** The monad of worker computations *)

Inductive Error :=
| TypeError (reason : string).

Inductive Outcome (A : Type) :=
| Fulfilled (a : A)
| Rejected (e : Error).
Arguments Fulfilled {A} a.
Arguments Rejected {A} e.

(** What [fetch] does with a request: the promise rejects (network
    unreachable, request refused) or resolves with a response of any status. *)
Inductive FetchOutcome :=
| NetworkError
| Served (r : Response).

(** The platform calls the worker makes; [ECachePut] is the call of
    [cache.put], whether or not the cache accepts the response. *)
Inductive Event :=
| EFetch (rq : Request)
| ECachesMatch (k : URL)
| ECachesOpen (name : string)
| ECachePut (name : string) (k : URL) (r : Response)
| ECachesKeys
| ECachesDelete (name : string)
| EWarn (msg : string)
| ESkipWaiting
| EClientsClaim.

#[global] Instance Event_eq_dec : EqDecision Event.
Proof. solve_decision. Defined.

(** The environment of one event: the network as it answers during the
    event, and the hostname of the worker's own origin, against which the
    manifest's paths are resolved. *)
Record Env := mkEnv {
  network : Request → FetchOutcome;
  self_hostname : string
}.

Definition SW (A : Type) : Type :=
  Env → CacheStorage → Outcome A * CacheStorage * list Event.

Definition ret {A} (a : A) : SW A := λ _ st, (Fulfilled a, st, []).

Definition bind {A B} (m : SW A) (f : A → SW B) : SW B := λ env st,
  match m env st with
  | (Fulfilled a, st1, ev1) =>
      match f a env st1 with
      | (o, st2, ev2) => (o, st2, ev1 ++ ev2)
      end
  | (Rejected e, st1, ev1) => (Rejected e, st1, ev1)
  end.

(** [try { m } catch { h }]: what [m] did to the storage before it threw
    stays done. *)
Definition try_catch {A} (m : SW A) (h : Error → SW A) : SW A := λ env st,
  match m env st with
  | (Fulfilled a, st1, ev1) => (Fulfilled a, st1, ev1)
  | (Rejected e, st1, ev1) =>
      match h e env st1 with
      | (o, st2, ev2) => (o, st2, ev1 ++ ev2)
      end
  end.

Notation "'let!' x ':=' m 'in' k" := (bind m (λ x, k))
  (at level 10, x name, m at level 100, k at level 200).
Notation "m ';;' k" := (bind m (λ _, k))
  (at level 100, k at level 200, right associativity).

(** [if (c) { m }] *)
Definition when (c : bool) (m : SW unit) : SW unit :=
  if c then m else ret tt.

(** A call whose promise is neither awaited nor caught: what it does to the
    storage stays done, and its outcome, a rejection included, is dropped. *)
Definition unawaited {A} (m : SW A) : SW unit := λ env st,
  match m env st with
  | (_, st1, ev1) => (Fulfilled tt, st1, ev1)
  end.

(** [Promise.all] over a list of computations, started in order. *)
Fixpoint promise_all {A} (ms : list (SW A)) : SW (list A) :=
  match ms with
  | [] => ret []
  | m :: rest =>
      let! a := m in
      let! r := promise_all rest in
      ret (a :: r)
  end.

(** ** Platform operations *)

Definition fetch (rq : Request) : SW Response := λ env st,
  match network env rq with
  | Served r => (Fulfilled r, st, [EFetch rq])
  | NetworkError => (Rejected (TypeError "Failed to fetch"), st, [EFetch rq])
  end.

Definition caches_match (rq : Request) : SW (option Response) := λ _ st,
  (Fulfilled (storage_match (url rq) st), st, [ECachesMatch (url rq)]).

(** The handle that [caches.open] resolves with is the cache's name. *)
Definition caches_open (name : string) : SW string := λ _ st,
  (Fulfilled name, storage_open name st, [ECachesOpen name]).

(** [cache.put(request, response)]: the promise rejects with a TypeError,
    and nothing is stored, when the response is not [storable]. *)
Definition cache_put (cache : string) (rq : Request) (r : Response) : SW unit :=
  λ _ st,
    if storable r then
      (Fulfilled tt, storage_put cache (url rq) r st,
       [ECachePut cache (url rq) r])
    else
      (Rejected (TypeError "Cache.put refused the response"), st,
       [ECachePut cache (url rq) r]).

Definition caches_keys : SW (list string) := λ _ st,
  (Fulfilled (storage_keys st), st, [ECachesKeys]).

Definition caches_delete (name : string) : SW bool := λ _ st,
  (Fulfilled (storage_has name st), storage_delete name st, [ECachesDelete name]).

Definition console_warn (msg : string) : SW unit := λ _ st,
  (Fulfilled tt, st, [EWarn msg]).

Definition skipWaiting : SW unit := λ _ st, (Fulfilled tt, st, [ESkipWaiting]).

Definition clients_claim : SW unit := λ _ st, (Fulfilled tt, st, [EClientsClaim]).

(** The request [cache.addAll] builds from a path string: a GET of that path
    on the worker's own origin. *)
Definition request_of_path (env : Env) (path : string) : Request :=
  {| method := "GET";
     url := {| hostname := self_hostname env; pathname := path; search := "" |} |}.

(** The responses of a batch, when every fetch resolved with an ok status
    and a response the cache accepts. *)
Fixpoint all_ok (outs : list FetchOutcome) : option (list Response) :=
  match outs with
  | [] => Some []
  | Served r :: rest =>
      if ok r && storable r then
        match all_ok rest with
        | Some rs => Some (r :: rs)
        | None => None
        end
      else None
  | NetworkError :: _ => None
  end.

Definition put_batch (cache : string) (entries : list (Request * Response))
    (st : CacheStorage) : CacheStorage :=
  fold_left (λ s e, storage_put cache (url e.1) e.2 s) entries st.

(** [cache.addAll(paths)]: every path is fetched; the promise rejects with a
    TypeError, and nothing is stored, unless every fetch resolved with an ok
    status and a [storable] response; then all responses are stored. *)
Definition cache_addAll (cache : string) (paths : list string) : SW unit :=
  λ env st,
    let reqs := map (request_of_path env) paths in
    match all_ok (map (network env) reqs) with
    | Some resps =>
        let entries := combine reqs resps in
        (Fulfilled tt, put_batch cache entries st,
         map EFetch reqs ++ map (λ e, ECachePut cache (url e.1) e.2) entries)
    | None =>
        (Rejected (TypeError "Request failed"), st, map EFetch reqs)
    end.

(** ** The worker: constants *)

Definition CACHE_NAME : string := "logisfit-v1".

Definition PRECACHE_URLS : list string :=
  [ "/";
    "/static/css/style.css";
    "/static/js/main.js";
    "/static/images/logo.png";
    "/static/images/favicon.ico" ].

Definition CDN_HOSTS : list string :=
  [ "cdn.jsdelivr.net";
    "fonts.googleapis.com";
    "fonts.gstatic.com" ].

(** ** JavaScript string methods *)

(** [s.startsWith(p)] *)
Definition startsWith (s p : string) : bool := String.prefix p s.

(** [s.includes(t)]: [t] occurs somewhere in [s]. *)
Fixpoint includes (s t : string) : bool :=
  String.prefix t s ||
  match s with
  | EmptyString => false
  | String _ s' => includes s' t
  end.

(** ** The worker: strategies *)

(** The double quote character, for the attribute values of the page. *)
Definition dq : string := String (ascii_of_nat 34) EmptyString.

(** The body of the page built in the catch branch of [networkFirst]. *)
Definition offline_body : string :=
  "<!DOCTYPE html><html><head><meta charset=" +:+ dq +:+ "UTF-8" +:+ dq +:+
  "><meta name=" +:+ dq +:+ "viewport" +:+ dq +:+ " content=" +:+ dq +:+
  "width=device-width,initial-scale=1" +:+ dq +:+ ">" +:+
  "<title>오프라인 - LogisFit</title>" +:+
  "<style>body{font-family:" +:+ dq +:+ "Noto Sans KR" +:+ dq +:+
  ",sans-serif;display:flex;justify-content:center;align-items:center;" +:+
  "min-height:100vh;margin:0;background:#f8f9fa;color:#333}" +:+
  ".offline{text-align:center;padding:2rem}.offline h1{font-size:1.5rem;margin-bottom:1rem}" +:+
  ".offline p{color:#666}</style></head>" +:+
  "<body><div class=" +:+ dq +:+ "offline" +:+ dq +:+ "><h1>오프라인 상태입니다</h1>" +:+
  "<p>인터넷 연결을 확인하고 다시 시도해주세요.</p>" +:+
  "<button onclick=" +:+ dq +:+ "location.reload()" +:+ dq +:+ " style=" +:+ dq +:+
  "margin-top:1rem;padding:0.5rem 1.5rem;border:none;" +:+
  "background:#0d6efd;color:#fff;border-radius:6px;cursor:pointer" +:+ dq +:+
  ">새로고침</button></div></body></html>".

Definition offline_response : Response :=
  new_Response offline_body
    {| init_status := None;
       init_headers := [("Content-Type", "text/html; charset=UTF-8")] |}.

Definition unavailable_response : Response :=
  new_Response "" {| init_status := Some 503; init_headers := [] |}.

Definition cacheFirst (request : Request) : SW Response :=
  let! cached := caches_match request in
  match cached with
  | Some c => ret c
  | None =>
      try_catch
        (let! response := fetch request in
         when (ok response)
           (let! cache := caches_open CACHE_NAME in
            unawaited (cache_put cache request response));;
         ret response)
        (λ _, ret unavailable_response)
  end.

Definition networkFirst (request : Request) : SW Response :=
  try_catch
    (let! response := fetch request in
     when (ok response)
       (let! cache := caches_open CACHE_NAME in
        unawaited (cache_put cache request response));;
     ret response)
    (λ _,
       let! cached := caches_match request in
       match cached with
       | Some c => ret c
       | None => ret offline_response
       end).

(** ** The worker: event listeners *)

(** The install listener: the promise given to [event.waitUntil], then the
    call of [self.skipWaiting()]. *)
Definition install : SW unit :=
  (let! cache := caches_open CACHE_NAME in
   try_catch
     (cache_addAll cache PRECACHE_URLS)
     (λ err, console_warn "[SW] 프리캐시 일부 실패:"));;
  skipWaiting.

(** The activate listener. *)
Definition activate : SW unit :=
  (let! cacheNames := caches_keys in
   promise_all
     (map caches_delete
        (List.filter (λ name, negb (String.eqb name CACHE_NAME)) cacheNames)));;
  clients_claim.

(** The fetch listener: [None] when it returns without calling
    [event.respondWith], otherwise the promise it responds with. *)
Definition fetch_listener (request : Request) : option (SW Response) :=
  let url := url request in
  if negb (String.eqb (method request) "GET") then None
  else if startsWith (pathname url) "/api/" then None
  else if existsb (λ host, includes (hostname url) host) CDN_HOSTS
       then Some (cacheFirst request)
  else if startsWith (pathname url) "/static/" then Some (cacheFirst request)
  else Some (networkFirst request).

(** What the page receives for a request: the listener's response, or, when
    the listener did not respond, the result of the browser's own fetch of
    the request. *)
Definition handle (request : Request) : SW Response :=
  match fetch_listener request with
  | Some respond => respond
  | None => fetch request
  end.

(** The four ways the fetch listener treats a request, in the order of its
    branches. *)
Inductive Category :=
| NonCacheable
| ThirdPartyAsset
| StaticAsset
| Navigational.

#[global] Instance Category_eq_dec : EqDecision Category.
Proof. solve_decision. Defined.

(** The branch of the fetch listener a request takes. *)
Definition classify (request : Request) : Category :=
  let url := url request in
  if negb (String.eqb (method request) "GET") then NonCacheable
  else if startsWith (pathname url) "/api/" then NonCacheable
  else if existsb (λ host, includes (hostname url) host) CDN_HOSTS
       then ThirdPartyAsset
  else if startsWith (pathname url) "/static/" then StaticAsset
  else Navigational.

(** ** Notions used to state the properties *)








(** The strategy the caching proxy applies to each category. *)
Definition strategy_for (c : Category) (rq : Request) : option (SW Response) :=
  match c with
  | NonCacheable => None
  | ThirdPartyAsset | StaticAsset => Some (cacheFirst rq)
  | Navigational => Some (networkFirst rq)
  end.

Definition cache_first_category (c : Category) : bool :=
  match c with
  | ThirdPartyAsset | StaticAsset => true
  | _ => false
  end.

(** The entry for [k] in the active generation, the cache named by the
    current version tag. *)
Definition active_lookup (k : URL) (st : CacheStorage) : option Response :=
  storage_get CACHE_NAME st ≫= (λ c, c !! k).

(** [r] is stored under [k] in the generation called [name]. *)
Definition stored (st : CacheStorage) (name : string) (k : URL) (r : Response) : Prop :=
  ∃ c, (name, c) ∈ st ∧ c !! k = Some r.

(** The storage as activation leaves it: no generation carries another tag
    than the current one. *)
Definition activated (st : CacheStorage) : Prop :=
  Forall (λ g, g.1 = CACHE_NAME) st.

(** The platform keeps cache names unique. *)
Definition well_formed (st : CacheStorage) : Prop :=
  NoDup (storage_keys st).

Definition is_fetch (e : Event) : bool :=
  match e with EFetch _ => true | _ => false end.

Definition touches_cache (e : Event) : bool :=
  match e with
  | ECachesMatch _ | ECachesOpen _ | ECachePut _ _ _ | ECachesKeys
  | ECachesDelete _ => true
  | _ => false
  end.

(** The number of network calls in a trace. *)
Definition network_calls (evs : list Event) : nat :=
  length (List.filter is_fetch evs).

(** Every response a trace writes into a cache has a success status. *)
Definition writes_ok (evs : list Event) : Prop :=
  ∀ name k r, ECachePut name k r ∈ evs → ok r = true.

(** Successive fetch events for one request, each under its own environment:
    the outcomes in order, the final storage, and the whole trace. *)
Fixpoint handle_each (rq : Request) (envs : list Env) (st : CacheStorage)
  : list (Outcome Response) * CacheStorage * list Event :=
  match envs with
  | [] => ([], st, [])
  | env :: rest =>
      match handle rq env st with
      | (o, st1, ev1) =>
          match handle_each rq rest st1 with
          | (os, st2, ev2) => (o :: os, st2, ev1 ++ ev2)
          end
      end
  end.

(** A manifest path is fetchable under [env] when its request resolves with a
    success status. *)
Definition fetchable (env : Env) (path : string) : Prop :=
  ∃ r, network env (request_of_path env path) = Served r ∧ ok r = true.

(** The storage states in which the worker serves fetch events: it has been
    installed and activated on some earlier storage, and has since handled
    any number of requests. *)
Inductive serving : CacheStorage → Prop :=
| serving_fresh st0 env1 env2 :
    serving (activate env2 (install env1 st0).1.2).1.2
| serving_next st rq env :
    serving st → serving (handle rq env st).1.2.

(** ** Sample requests, responses, networks and storages *)

Definition page_request : Request :=
  mkRequest "GET" (mkURL "logisfit.example" "/dashboard" "").
Definition asset_request : Request :=
  mkRequest "GET" (mkURL "logisfit.example" "/static/app.js" "").
Definition api_post_request : Request :=
  mkRequest "POST" (mkURL "logisfit.example" "/api/orders" "").
Definition found_response : Response := mkResponse 200 [] "fresh".
Definition missing_response : Response := mkResponse 404 [] "Not Found".
Definition failing_response : Response := mkResponse 500 [] "Server Error".
Definition env_online : Env := mkEnv (λ _, Served found_response) "logisfit.example".
Definition env_offline : Env := mkEnv (λ _, NetworkError) "logisfit.example".
Definition env_missing : Env := mkEnv (λ _, Served missing_response) "logisfit.example".
Definition env_failing : Env := mkEnv (λ _, Served failing_response) "logisfit.example".

(** The live fetch of a request fails in the wide sense when the network is
    unreachable or the response carries a non-success status. *)
Definition fetch_fails (env : Env) (rq : Request) : Prop :=
  network env rq = NetworkError ∨
  ∃ r, network env rq = Served r ∧ ok r = false.

(** The requests [cache.addAll] makes for the manifest. *)
Definition precache_requests (env : Env) : list Request :=
  map (request_of_path env) PRECACHE_URLS.

(** The message the install listener logs. *)
Definition warning : string := "[SW] 프리캐시 일부 실패:".

(** The names the activate listener deletes. *)
Definition stale_names (st : CacheStorage) : list string :=
  List.filter (λ name, negb (String.eqb name CACHE_NAME)) (storage_keys st).

(** A computation stores only success responses when every write it makes
    carries a success status and every entry of the storage it leaves was
    there before or has a success status. *)
Definition stores_only_success {A} (m : SW A) : Prop :=
  ∀ env st,
    writes_ok (m env st).2 ∧
    ∀ name k r, stored (m env st).1.2 name k r →
                stored st name k r ∨ ok r = true.

(** A network on which every manifest resource but the favicon is served. *)
Definition env_no_favicon : Env :=
  mkEnv (λ rq, if String.eqb (pathname (url rq)) "/static/images/favicon.ico"
               then Served missing_response
               else Served found_response)
        "logisfit.example".

(** A storage left by an earlier version of the worker. *)
Definition stale_storage : CacheStorage :=
  [("logisfit-v0", {[ url page_request := found_response ]})].

(** A storage before activation: the stale generation holds an older copy
    of the asset. *)
Definition stale_response : Response := mkResponse 200 [] "stale".
Definition two_generations : CacheStorage :=
  [("logisfit-v0", {[ url asset_request := stale_response ]});
   (CACHE_NAME, {[ url asset_request := found_response ]})].

(** The entry for [k] in the generation called [name]. *)
Definition gen_lookup (name : string) (k : URL) (st : CacheStorage)
  : option Response :=
  storage_get name st ≫= (λ c, c !! k).

(** A request of the given method for a path on a host. *)
Definition request_to (m host path : string) : Request :=
  mkRequest m (mkURL host path "").

(** The storage states the worker passes through once it has been installed
    and activated on the storage [st0], handling any number of fetch events
    afterwards. *)
Inductive serving_from (st0 : CacheStorage) : CacheStorage → Prop :=
| serving_from_fresh env1 env2 :
    serving_from st0 (activate env2 (install env1 st0).1.2).1.2
| serving_from_next st rq env :
    serving_from st0 st → serving_from st0 (handle rq env st).1.2.

(** ** The page scripts: input masks and cookie lookup

    A JavaScript string is the list of its UTF-16 code units. *)

(** The code units of an ASCII text. *)
Definition js (s : string) : list N :=
  map N_of_ascii (String.list_ascii_of_string s).

(** A code unit the class [[0-9]] contains. *)
Definition is_digit (c : N) : bool := (48 <=? c)%N && (c <=? 57)%N.

(** [value.replace(/[^0-9]/g, '')] *)
Definition strip_non_digits (value : list N) : list N :=
  List.filter is_digit value.

(** [s.slice(a, b)] and [s.slice(a)] for the constant bounds the masks use,
    [0 <= a <= b]. *)
Definition slice (s : list N) (a b : nat) : list N := take (b - a) (drop a s).
Definition slice_from (s : list N) (a : nat) : list N := drop a s.

(** The code unit of ['-']. *)
Definition hyphen : N := 45%N.

(** The input listener of the fields marked [data-format="business-number"]:
    the new field value as a function of the typed one (123-45-67890). *)
Definition format_business_number (input : list N) : list N :=
  let value := strip_non_digits input in
  let value := if (10 <? length value)%nat then slice value 0 10 else value in
  if (5 <? length value)%nat then
    slice value 0 3 ++ [hyphen] ++ slice value 3 5 ++ [hyphen] ++ slice_from value 5
  else if (3 <? length value)%nat then
    slice value 0 3 ++ [hyphen] ++ slice_from value 3
  else value.

(** The input listener of the fields marked [data-format="phone"]
    (010-1234-5678). *)
Definition format_phone (input : list N) : list N :=
  let value := strip_non_digits input in
  let value := if (11 <? length value)%nat then slice value 0 11 else value in
  if (7 <? length value)%nat then
    slice value 0 3 ++ [hyphen] ++ slice value 3 7 ++ [hyphen] ++ slice_from value 7
  else if (3 <? length value)%nat then
    slice value 0 3 ++ [hyphen] ++ slice_from value 3
  else value.

(** The common form of the two masks: digits grouped after the first [a] and
    the first [b] of them. *)
Definition grouped (a b : nat) (ds : list N) : list N :=
  if (b <? length ds)%nat then
    take a ds ++ [hyphen] ++ take (b - a) (drop a ds) ++ [hyphen] ++ drop b ds
  else if (a <? length ds)%nat then take a ds ++ [hyphen] ++ drop a ds
  else ds.

(** The number of hyphens a mask inserts for [n] digits. *)
Definition separators (a b n : nat) : nat :=
  if (b <? n)%nat then 2 else if (a <? n)%nat then 1 else 0.

(** The code units [String.prototype.trim] removes: white space and line
    terminators. *)
Definition is_whitespace (c : N) : bool :=
  existsb (N.eqb c)
    [9; 10; 11; 12; 13; 32; 160; 5760; 8192; 8193; 8194; 8195; 8196; 8197;
     8198; 8199; 8200; 8201; 8202; 8232; 8233; 8239; 8287; 12288; 65279]%N.

Fixpoint trim_start (s : list N) : list N :=
  match s with
  | c :: rest => if is_whitespace c then trim_start rest else s
  | [] => []
  end.

(** [s.trim()] *)
Definition trim (s : list N) : list N :=
  rev (trim_start (rev (trim_start s))).

(** [s.split(sep)] for a separator of one code unit. *)
Fixpoint split_on (sep : N) (s : list N) : list (list N) :=
  match s with
  | [] => [[]]
  | c :: rest =>
      if (c =? sep)%N then [] :: split_on sep rest
      else match split_on sep rest with
           | seg :: segs => (c :: seg) :: segs
           | [] => [[c]]
           end
  end.

(** [segs.join(sep)] *)
Fixpoint join_with (sep : N) (segs : list (list N)) : list N :=
  match segs with
  | [] => []
  | seg :: rest =>
      match rest with
      | [] => seg
      | _ :: _ => seg ++ sep :: join_with sep rest
      end
  end.

(** How a call ends: with a value, or by throwing. *)
Inductive Completion (A : Type) :=
| Returns (a : A)
| Throws.
Arguments Returns {A} a.
Arguments Throws {A}.

(** The code units of [';'] and ['=']. *)
Definition semicolon : N := 59%N.
Definition equals_sign : N := 61%N.

(** The loop of [getCookie] over the pieces of [document.cookie]: it stops at
    the first piece that, trimmed, starts with the name and ['=']. The
    platform's [decodeURIComponent] is a parameter; it throws on a malformed
    escape, which is [None]. *)
Fixpoint cookie_loop (decodeURIComponent : list N → option (list N))
    (name : list N) (cookies : list (list N)) : Completion (option (list N)) :=
  match cookies with
  | [] => Returns None
  | piece :: rest =>
      let cookie := trim piece in
      if bool_decide (take (length name + 1) cookie = name ++ [equals_sign]) then
        match decodeURIComponent (drop (length name + 1) cookie) with
        | Some value => Returns (Some value)
        | None => Throws
        end
      else cookie_loop decodeURIComponent name rest
  end.

(** [getCookie(name)], given the value of [document.cookie]; [Returns None]
    is [null]. *)
Definition getCookie (decodeURIComponent : list N → option (list N))
    (document_cookie name : list N) : Completion (option (list N)) :=
  match document_cookie with
  | [] => Returns None
  | _ :: _ =>
      cookie_loop decodeURIComponent name (split_on semicolon document_cookie)
  end.

(** ** Notions of the amended statements *)



(** [c] is the response for [k] in the oldest cache that has one. *)
Definition first_hit (k : URL) (st : CacheStorage) (c : Response) : Prop :=
  ∃ older name m newer,
    st = older ++ (name, m) :: newer ∧
    Forall (λ g, g.2 !! k = None) older ∧
    m !! k = Some c.

(** No cache of the storage has a response for [k]. *)
Definition uncached (k : URL) (st : CacheStorage) : Prop :=
  Forall (λ g, g.2 !! k = None) st.

(** A manifest path can be precached under [env] when its request resolves
    with a success status and a response the cache accepts. *)
Definition precacheable (env : Env) (path : string) : Prop :=
  ∃ r, network env (request_of_path env path) = Served r ∧
       ok r = true ∧ storable r = true.

(** A partial response, and one that varies on everything; both have a
    success status. *)
Definition partial_response : Response :=
  mkResponse 206 [("Content-Range", "bytes 0-4/10")] "fresh".
Definition vary_response : Response :=
  mkResponse 200 [("Vary", "Accept-Encoding, *")] "fresh".
Definition env_partial : Env :=
  mkEnv (λ _, Served partial_response) "logisfit.example".


(** A storage whose current generation holds the page, behind an empty
    cache of another name. *)
Definition cached_page_storage : CacheStorage :=
  [("other", ∅); (CACHE_NAME, {[ url page_request := found_response ]})].

(** ** Facts about the storage operations *)

Section Storage.
Implicit Types (st : CacheStorage) (name : string) (k : URL) (r : Response).

Lemma storage_has_open name st : storage_has name (storage_open name st) = true.
Proof.
  unfold storage_open. destruct (storage_has name st) eqn:E; [done|].
  unfold storage_has. rewrite existsb_app. simpl.
  by rewrite String.eqb_refl, orb_true_r.
Qed.

Lemma storage_get_put name k r st :
  storage_has name st = true →
  storage_get name (storage_put name k r st) ≫= (λ c, c !! k) = Some r.
Proof.
  induction st as [|[n c] st IH]; simpl; [done|].
  destruct (String.eqb n name) eqn:E; simpl.
  - intros _. rewrite E. simpl. apply lookup_insert_eq.
  - intros H. rewrite E. by apply IH.
Qed.

Lemma storage_match_put_miss name k r st :
  storage_has name st = true →
  storage_match k st = None →
  storage_match k (storage_put name k r st) = Some r.
Proof.
  induction st as [|[n c] st IH]; simpl; [done|].
  destruct (c !! k) eqn:Ek; [done|].
  destruct (String.eqb n name) eqn:E; simpl.
  - intros _ _. by rewrite lookup_insert_eq.
  - intros H Hm. rewrite Ek. by apply IH.
Qed.

Lemma storage_match_open name k st :
  storage_match k (storage_open name st) = storage_match k st.
Proof.
  unfold storage_open. destruct (storage_has name st); [done|].
  induction st as [|[n c] st IH]; simpl; [done|].
  destruct (c !! k); [done|]. apply IH.
Qed.

Lemma storage_match_activated k r st :
  activated st → active_lookup k st = Some r → storage_match k st = Some r.
Proof.
  destruct st as [|[n c] st]; [done|].
  intros H. inversion H as [|? ? Hn _]; simpl in Hn; subst.
  unfold active_lookup. simpl. by intros ->.
Qed.
End Storage.

(** ** The request classifier *)

Lemma fetch_listener_classify rq :
  fetch_listener rq = strategy_for (classify rq) rq.
Proof.
  unfold fetch_listener, classify.
  destruct (negb (String.eqb (method rq) "GET")); [done|].
  destruct (startsWith (pathname (url rq)) "/api/"); [done|].
  destruct (existsb _ CDN_HOSTS); [done|].
  by destruct (startsWith (pathname (url rq)) "/static/").
Qed.

Lemma handle_cache_first rq :
  cache_first_category (classify rq) = true → handle rq = cacheFirst rq.
Proof.
  intros H. unfold handle. rewrite fetch_listener_classify.
  by destruct (classify rq).
Qed.

Lemma handle_navigational rq :
  classify rq = Navigational → handle rq = networkFirst rq.
Proof. intros H. unfold handle. by rewrite fetch_listener_classify, H. Qed.

(** ** Running the two strategies *)

Section Strategies.
Variables (rq : Request) (env : Env) (st : CacheStorage).

Lemma networkFirst_live r :
  network env rq = Served r → ok r = true → storable r = true →
  networkFirst rq env st =
    (Fulfilled r,
     storage_put CACHE_NAME (url rq) r (storage_open CACHE_NAME st),
     [EFetch rq; ECachesOpen CACHE_NAME; ECachePut CACHE_NAME (url rq) r]).
Proof.
  intros Hn Hok Hst.
  unfold networkFirst, try_catch, bind, fetch, when, unawaited, caches_open,
    cache_put.
  rewrite Hn, Hok, Hst. reflexivity.
Qed.

Lemma networkFirst_refused r :
  network env rq = Served r → ok r = true → storable r = false →
  networkFirst rq env st =
    (Fulfilled r, storage_open CACHE_NAME st,
     [EFetch rq; ECachesOpen CACHE_NAME; ECachePut CACHE_NAME (url rq) r]).
Proof.
  intros Hn Hok Hst.
  unfold networkFirst, try_catch, bind, fetch, when, unawaited, caches_open,
    cache_put.
  rewrite Hn, Hok, Hst. reflexivity.
Qed.

Lemma networkFirst_bad_status r :
  network env rq = Served r → ok r = false →
  networkFirst rq env st = (Fulfilled r, st, [EFetch rq]).
Proof.
  intros Hn Hok. unfold networkFirst, try_catch, bind, fetch.
  rewrite Hn, Hok. reflexivity.
Qed.

Lemma networkFirst_offline :
  network env rq = NetworkError →
  networkFirst rq env st =
    (Fulfilled (default offline_response (storage_match (url rq) st)), st,
     [EFetch rq; ECachesMatch (url rq)]).
Proof.
  intros Hn. unfold networkFirst, try_catch, bind, fetch, caches_match.
  rewrite Hn. by destruct (storage_match (url rq) st).
Qed.

Lemma cacheFirst_hit c :
  storage_match (url rq) st = Some c →
  cacheFirst rq env st = (Fulfilled c, st, [ECachesMatch (url rq)]).
Proof.
  intros Hm. unfold cacheFirst, bind, caches_match. by rewrite Hm.
Qed.

Lemma cacheFirst_live r :
  storage_match (url rq) st = None →
  network env rq = Served r → ok r = true → storable r = true →
  cacheFirst rq env st =
    (Fulfilled r,
     storage_put CACHE_NAME (url rq) r (storage_open CACHE_NAME st),
     [ECachesMatch (url rq); EFetch rq; ECachesOpen CACHE_NAME;
      ECachePut CACHE_NAME (url rq) r]).
Proof.
  intros Hm Hn Hok Hst.
  unfold cacheFirst, try_catch, bind, fetch, caches_match, when, unawaited,
    caches_open, cache_put.
  rewrite Hm, Hn, Hok, Hst. reflexivity.
Qed.

Lemma cacheFirst_refused r :
  storage_match (url rq) st = None →
  network env rq = Served r → ok r = true → storable r = false →
  cacheFirst rq env st =
    (Fulfilled r, storage_open CACHE_NAME st,
     [ECachesMatch (url rq); EFetch rq; ECachesOpen CACHE_NAME;
      ECachePut CACHE_NAME (url rq) r]).
Proof.
  intros Hm Hn Hok Hst.
  unfold cacheFirst, try_catch, bind, fetch, caches_match, when, unawaited,
    caches_open, cache_put.
  rewrite Hm, Hn, Hok, Hst. reflexivity.
Qed.

Lemma cacheFirst_bad_status r :
  storage_match (url rq) st = None →
  network env rq = Served r → ok r = false →
  cacheFirst rq env st =
    (Fulfilled r, st, [ECachesMatch (url rq); EFetch rq]).
Proof.
  intros Hm Hn Hok. unfold cacheFirst, try_catch, bind, fetch, caches_match.
  rewrite Hm, Hn, Hok. reflexivity.
Qed.

Lemma cacheFirst_unreachable :
  storage_match (url rq) st = None →
  network env rq = NetworkError →
  cacheFirst rq env st =
    (Fulfilled unavailable_response, st, [ECachesMatch (url rq); EFetch rq]).
Proof.
  intros Hm Hn. unfold cacheFirst, try_catch, bind, fetch, caches_match.
  rewrite Hm, Hn. reflexivity.
Qed.
End Strategies.

(** ** Network-First *)

(** C10. A navigational request whose live fetch resolves with a non-success
    status gets that response back as it is: nothing is stored, and neither
    the cache nor the offline page is consulted. Whenever the fetch resolves,
    with any status, no cache lookup is made. *)
Theorem network_first_error_status rq env st r :
  classify rq = Navigational →
  network env rq = Served r →
  (ok r = false → handle rq env st = (Fulfilled r, st, [EFetch rq])) ∧
  (∃ st' evs, handle rq env st = (Fulfilled r, st', evs) ∧
     ECachesMatch (url rq) ∉ evs).
Proof.
  intros Hc Hn. rewrite (handle_navigational rq Hc). split.
  - intros Hok. by apply networkFirst_bad_status.
  - destruct (ok r) eqn:Hok; [destruct (storable r) eqn:Hst|].
    + rewrite (networkFirst_live _ _ _ r) by done. do 2 eexists. split; [done|].
      rewrite !not_elem_of_cons. split_and!; try done. apply not_elem_of_nil.
    + rewrite (networkFirst_refused _ _ _ r) by done. do 2 eexists. split; [done|].
      rewrite !not_elem_of_cons. split_and!; try done. apply not_elem_of_nil.
    + rewrite (networkFirst_bad_status _ _ _ r) by done. do 2 eexists.
      split; [done|].
      rewrite !not_elem_of_cons. split_and!; try done. apply not_elem_of_nil.
Qed.

Lemma network_first_error_status_witness :
  classify page_request = Navigational ∧
  network env_failing page_request = Served failing_response ∧
  ok failing_response = false ∧
  handle page_request env_failing [] =
    (Fulfilled failing_response, [], [EFetch page_request]).
Proof.
  do 3 (split; [reflexivity|]).
  apply (network_first_error_status page_request env_failing [] failing_response);
    reflexivity.
Defined.

(** ** Cache-First: a failing live fetch *)

(** C5, as stated, fails: an uncached static asset whose live fetch resolves
    with status 404 is answered with that 404 response, body included, and
    not with the empty 503 response. *)
Lemma cache_first_error_status_counterexample :
  cache_first_category (classify asset_request) = true ∧
  storage_match (url asset_request) [] = None ∧
  fetch_fails env_missing asset_request ∧
  handle asset_request env_missing [] =
    (Fulfilled missing_response, [],
     [ECachesMatch (url asset_request); EFetch asset_request]) ∧
  missing_response ≠ unavailable_response.
Proof.
  split_and!; try reflexivity.
  - right. by exists missing_response.
  - discriminate.
Qed.

(** C5, amended. Under Cache-First, for a request not found in the cache:
    when the live fetch rejects (network unreachable), [handle] resolves with
    a synthetic response of empty body and status 503; when the live fetch
    resolves with a non-success status, [handle] resolves with that live
    response as it is and stores nothing. In no case does [handle] reject. *)
Theorem cache_first_fetch_failure rq env st :
  cache_first_category (classify rq) = true →
  storage_match (url rq) st = None →
  (network env rq = NetworkError →
     handle rq env st =
       (Fulfilled unavailable_response, st, [ECachesMatch (url rq); EFetch rq])) ∧
  (∀ r, network env rq = Served r → ok r = false →
     handle rq env st = (Fulfilled r, st, [ECachesMatch (url rq); EFetch rq])) ∧
  body unavailable_response = "" ∧
  status unavailable_response = 503 ∧
  (∃ resp, (handle rq env st).1.1 = Fulfilled resp).
Proof.
  intros Hc Hm. rewrite (handle_cache_first rq Hc). split_and!; try done.
  - by apply cacheFirst_unreachable.
  - intros r. by apply cacheFirst_bad_status.
  - destruct (network env rq) as [|r] eqn:Hn.
    + rewrite cacheFirst_unreachable by done. eauto.
    + destruct (ok r) eqn:Hok; [destruct (storable r) eqn:Hst|].
      * rewrite (cacheFirst_live _ _ _ r) by done. eauto.
      * rewrite (cacheFirst_refused _ _ _ r) by done. eauto.
      * rewrite (cacheFirst_bad_status _ _ _ r) by done. eauto.
Qed.

Lemma cache_first_fetch_failure_witness :
  cache_first_category (classify asset_request) = true ∧
  storage_match (url asset_request) [] = None ∧
  network env_offline asset_request = NetworkError ∧
  handle asset_request env_offline [] =
    (Fulfilled unavailable_response, [],
     [ECachesMatch (url asset_request); EFetch asset_request]).
Proof.
  do 3 (split; [reflexivity|]).
  apply (proj1 (cache_first_fetch_failure asset_request env_offline []
                  eq_refl eq_refl)); reflexivity.
Defined.

(** ** Requests the proxy does not answer *)

(** C7. A request whose method is not GET, and a request of any method whose
    path is under /api/, is not answered by the listener: the request itself
    goes to the network, that fetch is the only platform call, its result is
    what the page receives, and the cache storage is neither consulted nor
    changed. *)
Theorem non_cacheable_pass_through rq env st :
  method rq ≠ "GET" ∨ startsWith (pathname (url rq)) "/api/" = true →
  fetch_listener rq = None ∧
  ∃ o evs, handle rq env st = (o, st, evs) ∧
    evs = [EFetch rq] ∧
    network_calls evs = 1%nat ∧
    Forall (λ e, touches_cache e = false) evs ∧
    (∀ r, network env rq = Served r → o = Fulfilled r) ∧
    (network env rq = NetworkError → ∃ e, o = Rejected e).
Proof.
  intros H.
  assert (Hl : fetch_listener rq = None).
  { unfold fetch_listener. destruct H as [H|H].
    - apply String.eqb_neq in H. by rewrite H.
    - rewrite H. by destruct (negb _). }
  split; [done|]. unfold handle. rewrite Hl. unfold fetch.
  destruct (network env rq) as [|r] eqn:Hn; do 2 eexists;
    (split_and!; [reflexivity|reflexivity|reflexivity| |intros; simplify_eq; eauto..]);
    by repeat constructor.
Qed.

Lemma non_cacheable_pass_through_witness :
  (method api_post_request ≠ "GET" ∨
   startsWith (pathname (url api_post_request)) "/api/" = true) ∧
  fetch_listener api_post_request = None.
Proof.
  split; [by left|].
  apply (non_cacheable_pass_through api_post_request env_online []). by left.
Defined.

(** ** The offline page *)

(** C8. The offline page is one fixed response, built without any platform
    call: whatever the request, the network and the storage, a Network-First
    fallback that finds nothing cached resolves with that same response. It
    has status 200, which is a success status, and the content type
    text/html; its body is an HTML document with a charset and a viewport
    meta element, the offline message, and a button that reloads the page,
    and it refers to no other resource. *)
Theorem offline_page :
  (∀ env st, ret offline_response env st = (Fulfilled offline_response, st, [])) ∧
  (∀ rq env st,
     network env rq = NetworkError → storage_match (url rq) st = None →
     networkFirst rq env st =
       (Fulfilled offline_response, st, [EFetch rq; ECachesMatch (url rq)])) ∧
  status offline_response = 200 ∧
  ok offline_response = true ∧
  headers offline_response = [("Content-Type", "text/html; charset=UTF-8")] ∧
  startsWith (body offline_response) "<!DOCTYPE html><html>" = true ∧
  includes (body offline_response) ("<meta charset=" +:+ dq +:+ "UTF-8" +:+ dq +:+ ">") = true ∧
  includes (body offline_response) ("<meta name=" +:+ dq +:+ "viewport" +:+ dq) = true ∧
  includes (body offline_response) "<h1>오프라인 상태입니다</h1>" = true ∧
  includes (body offline_response)
    ("<button onclick=" +:+ dq +:+ "location.reload()" +:+ dq) = true ∧
  includes (body offline_response) "</body></html>" = true ∧
  includes (body offline_response) "src=" = false ∧
  includes (body offline_response) "href=" = false ∧
  includes (body offline_response) "url(" = false ∧
  includes (body offline_response) "@import" = false.
Proof.
  split; [reflexivity|]. split.
  { intros rq env st Hn Hm. rewrite networkFirst_offline by done. by rewrite Hm. }
  split_and!; vm_compute; reflexivity.
Qed.

Lemma offline_page_witness :
  network env_offline page_request = NetworkError ∧
  storage_match (url page_request) [] = None ∧
  networkFirst page_request env_offline [] =
    (Fulfilled offline_response, [],
     [EFetch page_request; ECachesMatch (url page_request)]).
Proof.
  do 2 (split; [reflexivity|]).
  apply (proj1 (proj2 offline_page) page_request env_offline []); reflexivity.
Defined.

(** ** Cache-First: round trip *)

Lemma handle_each_hit rq c st envs :
  cache_first_category (classify rq) = true →
  storage_match (url rq) st = Some c →
  handle_each rq envs st =
    (map (λ _, Fulfilled c) envs, st, map (λ _, ECachesMatch (url rq)) envs).
Proof.
  intros Hc Hm. induction envs as [|env envs IH]; simpl; [done|].
  rewrite (handle_cache_first rq Hc), (cacheFirst_hit _ _ _ c Hm), IH.
  reflexivity.
Qed.

Lemma network_calls_matches {A} k (l : list A) :
  network_calls (map (λ _, ECachesMatch k) l) = 0%nat.
Proof. unfold network_calls. by induction l. Qed.

(** ** Install and activate *)

Lemma install_precached env st resps :
  all_ok (map (network env) (precache_requests env)) = Some resps →
  install env st =
    (Fulfilled tt,
     put_batch CACHE_NAME (combine (precache_requests env) resps)
       (storage_open CACHE_NAME st),
     ECachesOpen CACHE_NAME ::
       (map EFetch (precache_requests env) ++
        map (λ e, ECachePut CACHE_NAME (url e.1) e.2)
          (combine (precache_requests env) resps)) ++ [ESkipWaiting]).
Proof.
  intros H. unfold install, bind, try_catch, caches_open, cache_addAll, skipWaiting.
  fold (precache_requests env). rewrite H. reflexivity.
Qed.

Lemma install_failed env st :
  all_ok (map (network env) (precache_requests env)) = None →
  install env st =
    (Fulfilled tt, storage_open CACHE_NAME st,
     ECachesOpen CACHE_NAME ::
       (map EFetch (precache_requests env) ++ [EWarn warning]) ++ [ESkipWaiting]).
Proof.
  intros H. unfold install, bind, try_catch, caches_open, cache_addAll,
    console_warn, skipWaiting.
  fold (precache_requests env). rewrite H. reflexivity.
Qed.

Lemma precacheable_fetchable env p : precacheable env p → fetchable env p.
Proof. intros (r & Hr & Hok & _). by exists r. Qed.

Lemma all_ok_precacheable env paths :
  is_Some (all_ok (map (network env) (map (request_of_path env) paths)))
  ↔ ∀ p, p ∈ paths → precacheable env p.
Proof.
  induction paths as [|p paths IH]; simpl.
  - split; [|by eauto]. intros _ p Hp. by apply elem_of_nil in Hp.
  - destruct (network env (request_of_path env p)) as [|r] eqn:Hn.
    + split; [by intros []|]. intros H.
      destruct (H p) as (r & Hr & _); [by left|]. congruence.
    + destruct (ok r && storable r) eqn:Hok.
      * apply andb_true_iff in Hok as [Hok Hst].
        destruct (all_ok _) as [rs|] eqn:Hall.
        -- split; [|by eauto]. intros _ q Hq. apply elem_of_cons in Hq as [->|Hq].
           ++ by exists r.
           ++ apply IH; [by eauto|done].
        -- split; [by intros []|]. intros H.
           destruct (proj2 IH) as [? ?]; [|done].
           intros q Hq. apply H. by right.
      * split; [by intros []|]. intros H.
        destruct (H p) as (r' & Hr & Hok' & Hst'); [by left|].
        rewrite Hn in Hr. simplify_eq. by rewrite Hok', Hst' in Hok.
Qed.

Lemma all_ok_fetchable env paths :
  is_Some (all_ok (map (network env) (map (request_of_path env) paths)))
  → ∀ p, p ∈ paths → fetchable env p.
Proof.
  intros H p Hp. apply precacheable_fetchable.
  by apply (proj1 (all_ok_precacheable env paths)).
Qed.

Lemma all_ok_responses outs resps :
  all_ok outs = Some resps → Forall (λ r, ok r = true) resps.
Proof.
  revert resps. induction outs as [|[|r] outs IH]; simpl; intros resps H.
  - simplify_eq. constructor.
  - done.
  - destruct (ok r && storable r) eqn:Hok; [|done].
    apply andb_true_iff in Hok as [Hok _].
    destruct (all_ok outs) as [rs|]; [|done]. simplify_eq.
    constructor; [done|]. by apply IH.
Qed.

(** The storage after the deletions of the activate listener. *)
Lemma delete_all_run names env st :
  ∃ bs, promise_all (map caches_delete names) env st =
          (Fulfilled bs, fold_left (λ s n, storage_delete n s) names st,
           map ECachesDelete names).
Proof.
  revert st. induction names as [|n names IH]; intros st; simpl.
  - by eexists.
  - destruct (IH (storage_delete n st)) as [bs Hbs].
    exists (storage_has n st :: bs).
    unfold bind, caches_delete at 1. rewrite Hbs. unfold ret. simpl.
    by rewrite app_nil_r.
Qed.

Lemma delete_all_filter names st :
  fold_left (λ s n, storage_delete n s) names st =
  List.filter (λ g, forallb (λ n, negb (String.eqb g.1 n)) names) st.
Proof.
  revert st. induction names as [|n names IH]; intros st; simpl.
  - induction st as [|g st IHst]; simpl; congruence.
  - rewrite IH. unfold storage_delete.
    induction st as [|g st IHst]; simpl; [done|].
    destruct (negb (String.eqb g.1 n)) eqn:E; simpl; [|done].
    rewrite IHst. done.
Qed.

Lemma purge_keeps_current st :
  fold_left (λ s n, storage_delete n s) (stale_names st) st =
  List.filter (λ g, String.eqb g.1 CACHE_NAME) st.
Proof.
  rewrite delete_all_filter. apply filter_ext_in. intros [n c] Hin. simpl.
  destruct (String.eqb n CACHE_NAME) eqn:E.
  - apply String.eqb_eq in E. subst. apply forallb_forall.
    intros m Hm. unfold stale_names in Hm. apply filter_In in Hm as [_ Hm].
    rewrite String.eqb_sym. exact Hm.
  - apply not_true_is_false. intros H. rewrite forallb_forall in H.
    specialize (H n). rewrite String.eqb_refl in H. simpl in H.
    assert (Hn : In n (stale_names st)); [|by specialize (H Hn)].
    unfold stale_names. apply filter_In. split; [|by rewrite E].
    unfold storage_keys. apply in_map_iff. by exists (n, c).
Qed.

Lemma activate_run env st :
  activate env st =
    (Fulfilled tt, List.filter (λ g, String.eqb g.1 CACHE_NAME) st,
     ECachesKeys :: map ECachesDelete (stale_names st) ++ [EClientsClaim]).
Proof.
  unfold activate, bind, caches_keys, clients_claim.
  fold (stale_names st).
  destruct (delete_all_run (stale_names st) env st) as [bs ->].
  by rewrite purge_keeps_current.
Qed.

Lemma activate_activated env st : activated (activate env st).1.2.
Proof.
  rewrite activate_run. simpl. apply Forall_forall. intros g Hg.
  apply list_elem_of_In, filter_In in Hg as [_ Hg]. by apply String.eqb_eq.
Qed.

Lemma storage_open_activated st :
  activated st → activated (storage_open CACHE_NAME st).
Proof.
  intros H. unfold storage_open. destruct (storage_has _ _); [done|].
  apply Forall_app. split; [done|]. by repeat constructor.
Qed.

Lemma storage_put_activated name k r st :
  activated st → activated (storage_put name k r st).
Proof.
  unfold activated. induction 1 as [|[n c] st Hn Hst IH]; simpl; [constructor|].
  simpl in Hn. destruct (String.eqb n name); constructor; auto.
Qed.

(** What a fetch event can do to the storage: nothing, or open the current
    generation, or open it and write one live success response into it. *)
Lemma handle_storage rq env st :
  (handle rq env st).1.2 = st ∨
  (handle rq env st).1.2 = storage_open CACHE_NAME st ∨
  ∃ r, network env rq = Served r ∧ ok r = true ∧
    (handle rq env st).1.2 =
      storage_put CACHE_NAME (url rq) r (storage_open CACHE_NAME st).
Proof.
  unfold handle. rewrite fetch_listener_classify.
  destruct (network env rq) as [|r] eqn:Hn;
    [|destruct (ok r) eqn:Hok; [destruct (storable r) eqn:Hst|]];
    destruct (storage_match (url rq) st) as [c|] eqn:Hm;
    destruct (classify rq); simpl;
    rewrite ?(cacheFirst_hit _ _ _ c Hm),
      ?(cacheFirst_unreachable _ _ _ Hm Hn),
      ?(cacheFirst_live _ _ _ r Hm Hn Hok Hst),
      ?(cacheFirst_refused _ _ _ r Hm Hn Hok Hst),
      ?(cacheFirst_bad_status _ _ _ r Hm Hn Hok),
      ?(networkFirst_offline _ _ _ Hn),
      ?(networkFirst_live _ _ _ r Hn Hok Hst),
      ?(networkFirst_refused _ _ _ r Hn Hok Hst),
      ?(networkFirst_bad_status _ _ _ r Hn Hok);
    unfold fetch; rewrite ?Hn; simpl; eauto 6.
Qed.

Lemma handle_activated rq env st :
  activated st → activated (handle rq env st).1.2.
Proof.
  intros H.
  destruct (handle_storage rq env st) as [->|[->|(r & _ & _ & ->)]]; [done| |].
  - by apply storage_open_activated.
  - by apply storage_put_activated, storage_open_activated.
Qed.

(** Whenever the worker serves fetch events, the storage holds no generation
    but the current one. *)
Lemma serving_activated st : serving st → activated st.
Proof.
  induction 1; [apply activate_activated|by apply handle_activated].
Qed.

(** [caches.match] is not restricted to the current generation: on a storage
    that still holds an older generation, which activation rules out, the
    older entry answers. *)
Example older_generation_answers :
  active_lookup (url asset_request) two_generations = Some found_response ∧
  cacheFirst asset_request env_offline two_generations =
    (Fulfilled stale_response, two_generations,
     [ECachesMatch (url asset_request)]).
Proof.
  split; [vm_compute; reflexivity|].
  apply cacheFirst_hit. vm_compute. reflexivity.
Qed.

(** ** Only success responses are stored *)

Section Stored.
Implicit Types (st : CacheStorage) (name : string) (k : URL) (r : Response).

Lemma stored_open name st n k r :
  stored (storage_open name st) n k r → stored st n k r.
Proof.
  unfold storage_open. destruct (storage_has name st); [done|].
  intros (c & Hin & Hk). apply elem_of_app in Hin as [Hin|Hin].
  - by exists c.
  - apply list_elem_of_singleton in Hin. simplify_eq.
Qed.

Lemma stored_put name k r st n k' r' :
  stored (storage_put name k r st) n k' r' → stored st n k' r' ∨ r' = r.
Proof.
  induction st as [|[m c] st IH]; simpl.
  - intros (c & Hin & _). by apply elem_of_nil in Hin.
  - destruct (String.eqb m name).
    + intros (c' & Hin & Hk). apply elem_of_cons in Hin as [Heq|Hin].
      * simplify_eq. destruct (decide (k = k')) as [->|Hne].
        -- rewrite lookup_insert_eq in Hk. right. congruence.
        -- rewrite lookup_insert_ne in Hk by done. left. exists c.
           split; [by left|done].
      * left. exists c'. split; [by right|done].
    + intros (c' & Hin & Hk). apply elem_of_cons in Hin as [Heq|Hin].
      * simplify_eq. left. exists c. split; [by left|done].
      * destruct IH as [(c'' & Hin' & Hk') | ->]; [by exists c'| |by right].
        left. exists c''. split; [by right|done].
Qed.

Lemma stored_put_batch name entries st n k r :
  stored (put_batch name entries st) n k r →
  stored st n k r ∨ r ∈ entries.*2.
Proof.
  unfold put_batch. revert st.
  induction entries as [|[rq r0] entries IH]; intros st; simpl; [by left|].
  intros H. apply IH in H as [H|H]; [|by right; right].
  apply stored_put in H as [H| ->]; [by left|right; by left].
Qed.
End Stored.

Lemma stored_one_put st name k r n k' r' :
  ok r = true →
  stored (storage_put name k r (storage_open name st)) n k' r' →
  stored st n k' r' ∨ ok r' = true.
Proof.
  intros Hok H. apply stored_put in H as [H| ->]; [|by right].
  left. by apply stored_open in H.
Qed.

Ltac trace_members :=
  repeat match goal with
         | H : _ ∈ _ :: _ |- _ => apply elem_of_cons in H as [H|H]
         | H : _ ∈ [] |- _ => by apply elem_of_nil in H
         | H : ECachePut _ _ _ = _ |- _ => simplify_eq
         | H : _ = ECachePut _ _ _ |- _ => simplify_eq
         end.

Lemma cacheFirst_stores_only_success rq : stores_only_success (cacheFirst rq).
Proof.
  intros env st.
  destruct (storage_match (url rq) st) as [c|] eqn:Hm.
  { rewrite (cacheFirst_hit _ _ _ c Hm). simpl. split; [|by left].
    intros n k r H. trace_members. }
  destruct (network env rq) as [|r] eqn:Hn.
  { rewrite (cacheFirst_unreachable _ _ _ Hm Hn). simpl. split; [|by left].
    intros n k r H. trace_members. }
  destruct (ok r) eqn:Hok; [destruct (storable r) eqn:Hst|].
  - rewrite (cacheFirst_live _ _ _ r Hm Hn Hok Hst). simpl. split.
    + intros n k r' H. trace_members. done.
    + intros n k r'. by apply stored_one_put.
  - rewrite (cacheFirst_refused _ _ _ r Hm Hn Hok Hst). simpl. split.
    + intros n k r' H. trace_members. done.
    + intros n k r' H. left. by apply stored_open in H.
  - rewrite (cacheFirst_bad_status _ _ _ r Hm Hn Hok). simpl. split; [|by left].
    intros n k r' H. trace_members.
Qed.

Lemma networkFirst_stores_only_success rq : stores_only_success (networkFirst rq).
Proof.
  intros env st.
  destruct (network env rq) as [|r] eqn:Hn.
  { rewrite (networkFirst_offline _ _ _ Hn). simpl. split; [|by left].
    intros n k r H. trace_members. }
  destruct (ok r) eqn:Hok; [destruct (storable r) eqn:Hst|].
  - rewrite (networkFirst_live _ _ _ r Hn Hok Hst). simpl. split.
    + intros n k r' H. trace_members. done.
    + intros n k r'. by apply stored_one_put.
  - rewrite (networkFirst_refused _ _ _ r Hn Hok Hst). simpl. split.
    + intros n k r' H. trace_members. done.
    + intros n k r' H. left. by apply stored_open in H.
  - rewrite (networkFirst_bad_status _ _ _ r Hn Hok). simpl. split; [|by left].
    intros n k r' H. trace_members.
Qed.

Lemma install_stores_only_success : stores_only_success install.
Proof.
  intros env st.
  destruct (all_ok (map (network env) (precache_requests env))) as [resps|] eqn:Hall.
  - rewrite (install_precached _ _ resps Hall). cbn [fst snd].
    pose proof (all_ok_responses _ _ Hall) as Hok.
    rewrite Forall_forall in Hok.
    assert (Hsnd : ∀ r, r ∈ (combine (precache_requests env) resps).*2 → ok r = true).
    { intros r Hr. apply Hok. apply list_elem_of_fmap in Hr as ([rq r'] & -> & Hin).
      simpl. apply list_elem_of_In in Hin. apply in_combine_r in Hin.
      by apply list_elem_of_In. }
    split.
    + intros n k r H. apply elem_of_cons in H as [H|H]; [done|].
      apply elem_of_app in H as [H|H]; [|trace_members].
      apply elem_of_app in H as [H|H].
      * apply list_elem_of_fmap in H as (? & ? & _). done.
      * apply list_elem_of_fmap in H as (e & He & Hin). simplify_eq.
        apply Hsnd. apply list_elem_of_fmap. by exists e.
    + intros n k r H. apply stored_put_batch in H as [H|H].
      * left. by apply stored_open in H.
      * right. by apply Hsnd.
  - rewrite (install_failed _ _ Hall). cbn [fst snd]. split.
    + intros n k r H. apply elem_of_cons in H as [H|H]; [done|].
      apply elem_of_app in H as [H|H]; [|trace_members].
      apply elem_of_app in H as [H|H]; [|trace_members].
      apply list_elem_of_fmap in H as (? & ? & _). done.
    + intros n k r H. left. by apply stored_open in H.
Qed.

(** C4. Cache-First handling, Network-First handling and install-time
    precaching write a response into the cache storage only when its status
    is a success status: every write they make carries such a response, and
    every entry of the storage they leave either was there before or has a
    success status. The same holds of [handle] on any request. *)
Theorem only_success_stored :
  (∀ rq, stores_only_success (cacheFirst rq)) ∧
  (∀ rq, stores_only_success (networkFirst rq)) ∧
  stores_only_success install ∧
  (∀ rq, stores_only_success (handle rq)).
Proof.
  split_and!.
  - apply cacheFirst_stores_only_success.
  - apply networkFirst_stores_only_success.
  - apply install_stores_only_success.
  - intros rq. unfold handle. rewrite fetch_listener_classify.
    destruct (classify rq); simpl;
      auto using cacheFirst_stores_only_success, networkFirst_stores_only_success.
    intros env st. unfold fetch.
    destruct (network env rq); simpl; (split; [|by left]);
      intros n k r' H; trace_members.
Qed.

(** ** Installation completes whatever the network does *)

(** C9. The install step always completes: the promise it waits on is
    fulfilled, never rejected. When a manifest resource cannot be fetched
    (the network is unreachable for it, or it is answered with a non-success
    status), the failure is logged with one warning and swallowed. *)
Theorem install_always_completes env st :
  (∃ st' evs, install env st = (Fulfilled tt, st', evs)) ∧
  (∀ p, p ∈ PRECACHE_URLS → ¬ fetchable env p →
     ∃ st' evs, install env st = (Fulfilled tt, st', evs) ∧
       EWarn warning ∈ evs ∧ ESkipWaiting ∈ evs).
Proof.
  split.
  - destruct (all_ok (map (network env) (precache_requests env))) as [resps|] eqn:Hall.
    + rewrite (install_precached _ _ resps Hall). eauto.
    + rewrite (install_failed _ _ Hall). eauto.
  - intros p Hp Hnf.
    destruct (all_ok (map (network env) (precache_requests env))) as [resps|] eqn:Hall.
    + exfalso. apply Hnf. unfold precache_requests in Hall.
      by apply (all_ok_fetchable env PRECACHE_URLS); [rewrite Hall; eauto|].
    + rewrite (install_failed _ _ Hall). do 2 eexists. split; [done|].
      split.
      * right. apply elem_of_app. left. apply elem_of_app. right. by left.
      * right. apply elem_of_app. right. by left.
Qed.

Lemma install_always_completes_witness :
  "/static/images/favicon.ico" ∈ PRECACHE_URLS ∧
  ¬ fetchable env_no_favicon "/static/images/favicon.ico" ∧
  ∃ st' evs, install env_no_favicon [] = (Fulfilled tt, st', evs) ∧
    EWarn warning ∈ evs ∧ ESkipWaiting ∈ evs.
Proof.
  assert (Hin : "/static/images/favicon.ico" ∈ PRECACHE_URLS).
  { unfold PRECACHE_URLS. do 4 right. by left. }
  assert (Hnf : ¬ fetchable env_no_favicon "/static/images/favicon.ico").
  { intros (r & Hr & Hok). vm_compute in Hr. simplify_eq. }
  split; [exact Hin|]. split; [exact Hnf|].
  exact (proj2 (install_always_completes env_no_favicon [])
           "/static/images/favicon.ico" Hin Hnf).
Defined.

(** ** The storage after install and activate *)

Section Lifecycle.
Implicit Types (st : CacheStorage) (name : string) (k : URL) (r : Response).

Lemma storage_has_put name n k r st :
  storage_has name (storage_put n k r st) = storage_has name st.
Proof.
  unfold storage_has. induction st as [|[m c] st IH]; simpl; [done|].
  destruct (String.eqb m n); simpl; [done|]. by rewrite IH.
Qed.

Lemma active_lookup_put_ne name k r k' st :
  k ≠ k' →
  active_lookup k' (storage_put name k r st) = active_lookup k' st.
Proof.
  intros Hne. unfold active_lookup.
  induction st as [|[m c] st IH]; simpl; [done|].
  destruct (String.eqb m name) eqn:E; simpl.
  - destruct (String.eqb m CACHE_NAME); simpl; [|done].
    by rewrite lookup_insert_ne.
  - destruct (String.eqb m CACHE_NAME); simpl; [done|]. apply IH.
Qed.

Lemma active_lookup_put_batch_other name entries k st :
  k ∉ map (λ e, url e.1) entries →
  active_lookup k (put_batch name entries st) = active_lookup k st.
Proof.
  unfold put_batch. revert st.
  induction entries as [|[rq r] entries IH]; intros st Hk; simpl; [done|].
  simpl in Hk. apply not_elem_of_cons in Hk as [Hne Hk].
  rewrite IH by done. by apply active_lookup_put_ne.
Qed.

Lemma active_lookup_put_batch entries rq r st :
  storage_has CACHE_NAME st = true →
  NoDup (map (λ e, url e.1) entries) →
  (rq, r) ∈ entries →
  active_lookup (url rq) (put_batch CACHE_NAME entries st) = Some r.
Proof.
  revert st. induction entries as [|[rq0 r0] entries IH]; intros st Hhas Hnd Hin.
  - by apply elem_of_nil in Hin.
  - simpl in Hnd. apply NoDup_cons in Hnd as [Hfresh Hnd].
    apply elem_of_cons in Hin as [Heq|Hin].
    + simplify_eq. unfold put_batch. simpl.
      fold (put_batch CACHE_NAME entries (storage_put CACHE_NAME (url rq0) r0 st)).
      rewrite active_lookup_put_batch_other by done.
      by apply storage_get_put.
    + unfold put_batch. simpl.
      fold (put_batch CACHE_NAME entries (storage_put CACHE_NAME (url rq0) r0 st)).
      apply IH; [by rewrite storage_has_put|done|done].
Qed.

Lemma storage_get_current_filter st :
  storage_get CACHE_NAME (List.filter (λ g, String.eqb g.1 CACHE_NAME) st)
  = storage_get CACHE_NAME st.
Proof.
  induction st as [|[n c] st IH]; [done|].
  cbn [List.filter storage_get fst].
  destruct (String.eqb n CACHE_NAME) eqn:E; [|done].
  cbn [storage_get]. by rewrite E.
Qed.

Lemma NoDup_constant (a : string) (l : list string) :
  NoDup l → (∀ x, x ∈ l → x = a) → (length l ≤ 1)%nat.
Proof.
  intros Hnd Hall. destruct l as [|x [|y l]]; simpl; [lia|lia|].
  exfalso. apply NoDup_cons in Hnd as [Hx _]. apply Hx.
  rewrite (Hall x), (Hall y); [by left|right; by left|by left].
Qed.

(** Activation leaves exactly the generations tagged with the current
    version, at most one of them, with its entries as they were. *)
Lemma activation_purges env st :
  (∀ n c, (n, c) ∈ (activate env st).1.2 ↔ (n, c) ∈ st ∧ n = CACHE_NAME) ∧
  (well_formed st → (length (activate env st).1.2 ≤ 1)%nat) ∧
  (∀ k, active_lookup k (activate env st).1.2 = active_lookup k st).
Proof.
  rewrite activate_run. cbn [fst snd]. split_and!.
  - intros n c. rewrite !list_elem_of_In, filter_In. simpl.
    by rewrite String.eqb_eq.
  - intros Hwf. rewrite <- (length_map fst).
    apply (NoDup_constant CACHE_NAME).
    + unfold well_formed, storage_keys in Hwf.
      induction st as [|[n c] st IH]; simpl; [constructor|].
      simpl in Hwf. apply NoDup_cons in Hwf as [Hn Hwf].
      destruct (String.eqb n CACHE_NAME); simpl; [|by apply IH].
      apply NoDup_cons. split; [|by apply IH].
      intros Hin. apply Hn. apply list_elem_of_fmap in Hin as (g & -> & Hg).
      apply list_elem_of_In, filter_In in Hg as [Hg _].
      apply list_elem_of_fmap. exists g. by rewrite list_elem_of_In.
    + intros x Hx. apply list_elem_of_fmap in Hx as (g & -> & Hg).
      apply list_elem_of_In, filter_In in Hg as [_ Hg]. by apply String.eqb_eq.
  - intros k. unfold active_lookup. by rewrite storage_get_current_filter.
Qed.

Lemma all_ok_length outs resps :
  all_ok outs = Some resps → outs = map Served resps.
Proof.
  revert resps. induction outs as [|[|r] outs IH]; simpl; intros resps H.
  - by simplify_eq.
  - done.
  - destruct (ok r && storable r); [|done].
    destruct (all_ok outs) as [rs|]; [|done].
    simplify_eq. simpl. f_equal. by apply IH.
Qed.

Lemma combine_keys (reqs : list Request) (resps : list Response) :
  length resps = length reqs →
  map (λ e, url e.1) (combine reqs resps) = map url reqs.
Proof.
  revert resps. induction reqs as [|rq reqs IH]; intros [|r resps] Hlen;
    simpl in *; try done.
  f_equal. apply IH. lia.
Qed.

Lemma combine_elem (reqs : list Request) (resps : list Response) i rq r :
  reqs !! i = Some rq → resps !! i = Some r → (rq, r) ∈ combine reqs resps.
Proof.
  revert resps i. induction reqs as [|rq0 reqs IH]; intros [|r0 resps] [|i];
    simpl; try done.
  - intros ? ?. simplify_eq. by left.
  - intros ? ?. right. by apply (IH _ i).
Qed.

Lemma precache_requests_distinct env :
  NoDup (map url (precache_requests env)).
Proof.
  unfold precache_requests, PRECACHE_URLS. simpl.
  repeat (apply NoDup_cons; split;
          [rewrite ?not_elem_of_cons; split_and?; try discriminate;
           apply not_elem_of_nil|]).
  constructor.
Qed.

(** When every manifest resource can be precached at install time, the
    active generation holds, after install and activation, the response
    served for each of them. *)
Lemma precache_complete env env' st p :
  (∀ q, q ∈ PRECACHE_URLS → precacheable env q) →
  p ∈ PRECACHE_URLS →
  ∃ r, network env (request_of_path env p) = Served r ∧
    active_lookup (url (request_of_path env p))
      (activate env' (install env st).1.2).1.2 = Some r.
Proof.
  intros Hall Hp.
  apply (proj2 (all_ok_precacheable env PRECACHE_URLS)) in Hall as [resps Hall].
  fold (precache_requests env) in Hall.
  rewrite (install_precached _ _ resps Hall). cbn [fst snd].
  rewrite (proj2 (proj2 (activation_purges env' _))).
  pose proof (all_ok_length _ _ Hall) as Hout.
  assert (Hlen : length resps = length (precache_requests env)).
  { rewrite <- (length_map (network env)), Hout. by rewrite length_map. }
  assert (Hrq : request_of_path env p ∈ precache_requests env).
  { apply list_elem_of_fmap. by exists p. }
  apply list_elem_of_lookup in Hrq as [i Hi].
  destruct (lookup_lt_is_Some_2 resps i) as [r Hr].
  { rewrite Hlen. by apply lookup_lt_Some in Hi. }
  exists r. split.
  - assert (Ho : map (network env) (precache_requests env) !! i
                 = Some (network env (request_of_path env p))).
    { by rewrite list_lookup_fmap, Hi. }
    rewrite Hout, list_lookup_fmap, Hr in Ho. simpl in Ho. congruence.
  - apply active_lookup_put_batch.
    + apply storage_has_open.
    + rewrite combine_keys by done. apply precache_requests_distinct.
    + by apply (combine_elem _ _ i).
Qed.
End Lifecycle.

(** C6, evaluated where it fails. Install and activate run on a storage that
    holds a stale generation, over a network that serves every manifest
    resource except the favicon. Afterwards the stale generation is gone and
    the current generation is the only one, but it is empty: none of the four
    manifest entries that were fetchable at install time is in it. *)
Theorem precache_all_or_nothing :
  (∀ p, p ∈ PRECACHE_URLS → p ≠ "/static/images/favicon.ico" →
     fetchable env_no_favicon p) ∧
  (activate env_no_favicon (install env_no_favicon stale_storage).1.2).1.2
    = [(CACHE_NAME, ∅)] ∧
  (∀ p, active_lookup (url (request_of_path env_no_favicon p))
          (activate env_no_favicon (install env_no_favicon stale_storage).1.2).1.2
        = None) ∧
  EWarn warning ∈ (install env_no_favicon stale_storage).2.
Proof.
  split_and!.
  - intros p Hp Hne. unfold PRECACHE_URLS in Hp.
    repeat (apply elem_of_cons in Hp as [->|Hp]);
      try (by exists found_response).
    by apply elem_of_nil in Hp.
  - by vm_compute.
  - intros p. by vm_compute.
  - vm_compute. do 6 right. by left.
Qed.


(** ** Further properties of the worker *)

Section Frame.
Implicit Types (st : CacheStorage) (name : string) (k : URL) (r : Response).

Lemma storage_get_app_miss name st st' :
  storage_has name st = false →
  storage_get name (st ++ st') = storage_get name st'.
Proof.
  unfold storage_has. induction st as [|[n c] st IH]; simpl; [done|].
  destruct (String.eqb n name); simpl; [done|]. apply IH.
Qed.

Lemma storage_get_app_hit name st st' :
  storage_has name st = true →
  storage_get name (st ++ st') = storage_get name st.
Proof.
  unfold storage_has. induction st as [|[n c] st IH]; simpl; [done|].
  destruct (String.eqb n name); simpl; [done|]. apply IH.
Qed.

Lemma storage_get_miss name st :
  storage_has name st = false → storage_get name st = None.
Proof.
  unfold storage_has. induction st as [|[n c] st IH]; simpl; [done|].
  destruct (String.eqb n name); simpl; [done|]. apply IH.
Qed.

Lemma gen_lookup_open name n k st :
  gen_lookup name k (storage_open n st) = gen_lookup name k st.
Proof.
  unfold gen_lookup, storage_open. destruct (storage_has n st) eqn:Hn; [done|].
  destruct (storage_has name st) eqn:Hname.
  - by rewrite storage_get_app_hit.
  - rewrite storage_get_app_miss, (storage_get_miss name st) by done. simpl.
    destruct (String.eqb n name); simpl; [apply lookup_empty|done].
Qed.

Lemma gen_lookup_put_other name n k k' r st :
  name ≠ n ∨ k ≠ k' →
  gen_lookup name k (storage_put n k' r st) = gen_lookup name k st.
Proof.
  intros Hne. unfold gen_lookup.
  induction st as [|[m c] st IH]; simpl; [done|].
  destruct (String.eqb m n) eqn:Emn; simpl.
  - destruct (String.eqb m name) eqn:Em; simpl; [|done].
    apply String.eqb_eq in Emn, Em. subst.
    destruct Hne as [Hne|Hne]; [done|]. by rewrite lookup_insert_ne.
  - destruct (String.eqb m name); simpl; [done|]. apply IH.
Qed.

Lemma gen_lookup_put_batch_other name n entries k st :
  name ≠ n ∨ k ∉ map (λ e, url e.1) entries →
  gen_lookup name k (put_batch n entries st) = gen_lookup name k st.
Proof.
  unfold put_batch. revert st.
  induction entries as [|[rq r] entries IH]; intros st Hk; simpl; [done|].
  rewrite IH.
  - apply gen_lookup_put_other. destruct Hk as [Hk|Hk]; [by left|right].
    simpl in Hk. apply not_elem_of_cons in Hk as [Hk _]. done.
  - destruct Hk as [Hk|Hk]; [by left|right].
    simpl in Hk. by apply not_elem_of_cons in Hk as [_ Hk].
Qed.
End Frame.

(** X1. Network-First freshness. With the storage as activation leaves it,
    a navigational request answered live with a success status and a
    response the cache accepts (not a 206, no Vary header naming the star) is answered with
    that same response by a later call made while the network is
    unreachable, and that later call leaves the storage as it is. *)
Theorem network_first_freshness rq env env' st r :
  classify rq = Navigational →
  activated st →
  network env rq = Served r → ok r = true → storable r = true →
  network env' rq = NetworkError →
  handle rq env' (handle rq env st).1.2 =
    (Fulfilled r, (handle rq env st).1.2, [EFetch rq; ECachesMatch (url rq)]).
Proof.
  intros Hc Ha Hn Hok Hst Hn'. rewrite (handle_navigational rq Hc).
  rewrite (networkFirst_live _ _ _ r Hn Hok Hst). cbn [fst snd].
  rewrite networkFirst_offline by done.
  rewrite (storage_match_activated (url rq) r); [done| |].
  - by apply storage_put_activated, storage_open_activated.
  - apply storage_get_put, storage_has_open.
Qed.

Lemma network_first_freshness_witness :
  classify page_request = Navigational ∧
  activated [] ∧
  storable found_response = true ∧
  (handle page_request env_offline
     (handle page_request env_online []).1.2).1.1 = Fulfilled found_response.
Proof.
  split; [reflexivity|]. split; [constructor|]. split; [reflexivity|].
  rewrite (network_first_freshness page_request env_online env_offline []
             found_response); [reflexivity|reflexivity|constructor|
                               reflexivity|reflexivity|reflexivity|reflexivity].
Defined.

(** X2. A fetch event changes at most one cache entry, the one for its own
    URL in the current generation: every entry of another generation, and
    every entry for another URL, reads the same before and after. *)
Theorem handle_frame rq env st name k :
  name ≠ CACHE_NAME ∨ k ≠ url rq →
  gen_lookup name k (handle rq env st).1.2 = gen_lookup name k st.
Proof.
  intros Hne.
  destruct (handle_storage rq env st) as [->|[->|(r & _ & _ & ->)]]; [done| |].
  - apply gen_lookup_open.
  - by rewrite gen_lookup_put_other, gen_lookup_open.
Qed.

Lemma handle_frame_witness :
  url asset_request ≠ url page_request ∧
  gen_lookup CACHE_NAME (url asset_request)
    (handle page_request env_online []).1.2 = None.
Proof.
  assert (H : url asset_request ≠ url page_request) by discriminate.
  split; [exact H|].
  rewrite (handle_frame page_request env_online [] CACHE_NAME
             (url asset_request) (or_intror H)).
  reflexivity.
Defined.

(** X3. A request the listener answers is never rejected: whatever the
    network and the storage, a GET request outside /api/ resolves with a
    response. *)
Theorem answered_never_rejects rq env st :
  classify rq ≠ NonCacheable →
  ∃ resp, (handle rq env st).1.1 = Fulfilled resp.
Proof.
  intros Hc. unfold handle. rewrite fetch_listener_classify.
  destruct (network env rq) as [|r] eqn:Hn;
    [|destruct (ok r) eqn:Hok; [destruct (storable r) eqn:Hst|]];
    destruct (storage_match (url rq) st) as [c|] eqn:Hm;
    destruct (classify rq); try done; simpl;
    rewrite ?(cacheFirst_hit _ _ _ c Hm),
      ?(cacheFirst_unreachable _ _ _ Hm Hn),
      ?(cacheFirst_live _ _ _ r Hm Hn Hok Hst),
      ?(cacheFirst_refused _ _ _ r Hm Hn Hok Hst),
      ?(cacheFirst_bad_status _ _ _ r Hm Hn Hok),
      ?(networkFirst_offline _ _ _ Hn),
      ?(networkFirst_live _ _ _ r Hn Hok Hst),
      ?(networkFirst_refused _ _ _ r Hn Hok Hst),
      ?(networkFirst_bad_status _ _ _ r Hn Hok);
    simpl; eauto.
Qed.

Lemma answered_never_rejects_witness :
  classify asset_request ≠ NonCacheable ∧
  ∃ resp, (handle asset_request env_offline []).1.1 = Fulfilled resp.
Proof.
  assert (H : classify asset_request ≠ NonCacheable) by discriminate.
  split; [exact H|].
  exact (answered_never_rejects asset_request env_offline [] H).
Defined.

Lemma network_calls_app evs1 evs2 :
  network_calls (evs1 ++ evs2) = (network_calls evs1 + network_calls evs2)%nat.
Proof. unfold network_calls. by rewrite List.filter_app, length_app. Qed.

Lemma network_calls_deletes names :
  network_calls (map ECachesDelete names) = 0%nat.
Proof. unfold network_calls. by induction names. Qed.

Lemma current_filter_idempotent (st : CacheStorage) :
  List.filter (λ g, String.eqb g.1 CACHE_NAME)
    (List.filter (λ g, String.eqb g.1 CACHE_NAME) st)
  = List.filter (λ g, String.eqb g.1 CACHE_NAME) st.
Proof.
  induction st as [|[n c] st IH]; [done|]. cbn [List.filter fst].
  destruct (String.eqb n CACHE_NAME) eqn:E; [|done].
  cbn [List.filter fst]. by rewrite E, IH.
Qed.

Lemma stale_names_activated (st : CacheStorage) :
  activated st → stale_names st = [].
Proof.
  unfold stale_names, storage_keys.
  induction 1 as [|[n c] st Hn _ IH]; [done|]. simpl in Hn. subst.
  cbn [map List.filter fst]. rewrite String.eqb_refl. exact IH.
Qed.

(** X4. Activation keeps exactly the generations tagged with the current
    version and deletes all others: afterwards no cache of another name
    exists, the current generation is as it was, no network call has been
    made, and, cache names being unique, at most one cache is left. *)
Theorem activate_purges_stale env st :
  (∀ n c, (n, c) ∈ (activate env st).1.2 ↔ (n, c) ∈ st ∧ n = CACHE_NAME) ∧
  (∀ n, n ≠ CACHE_NAME → storage_get n (activate env st).1.2 = None) ∧
  storage_get CACHE_NAME (activate env st).1.2 = storage_get CACHE_NAME st ∧
  network_calls (activate env st).2 = 0%nat ∧
  (well_formed st → (length (activate env st).1.2 ≤ 1)%nat).
Proof.
  destruct (activation_purges env st) as (Hmem & Hlen & _).
  split_and!; [exact Hmem| | | |exact Hlen].
  - intros n Hn. apply storage_get_miss. apply not_true_is_false. intros Hhas.
    unfold storage_has in Hhas. apply existsb_exists in Hhas as ([m c] & Hin & Heq).
    simpl in Heq. apply String.eqb_eq in Heq. subst.
    apply list_elem_of_In, Hmem in Hin as [_ Hin]. done.
  - rewrite activate_run. cbn [fst snd]. apply storage_get_current_filter.
  - rewrite activate_run. cbn [fst snd].
    change (ECachesKeys :: map ECachesDelete (stale_names st) ++ [EClientsClaim])
      with ([ECachesKeys] ++ map ECachesDelete (stale_names st) ++ [EClientsClaim]).
    by rewrite !network_calls_app, network_calls_deletes.
Qed.

Lemma activate_purges_stale_witness :
  well_formed stale_storage ∧
  (length (activate env_online stale_storage).1.2 ≤ 1)%nat.
Proof.
  assert (H : well_formed stale_storage).
  { unfold well_formed, stale_storage, storage_keys. simpl. apply NoDup_singleton. }
  split; [exact H|].
  exact (proj2 (proj2 (proj2 (proj2 (activate_purges_stale env_online stale_storage)))) H).
Defined.

(** X5. Activation is idempotent: a second activation deletes nothing and
    leaves the storage exactly as the first one left it. *)
Theorem activate_idempotent env env' st :
  activate env' (activate env st).1.2 =
    (Fulfilled tt, (activate env st).1.2, [ECachesKeys; EClientsClaim]).
Proof.
  rewrite (activate_run env' _).
  rewrite (stale_names_activated _ (activate_activated env st)).
  rewrite activate_run. cbn [fst snd]. by rewrite current_filter_idempotent.
Qed.

(** X6. When every manifest resource is answered at install time with a
    success status and a response the cache accepts (not a 206, no Vary
    header naming the star), then after install and activation the current generation holds, for
    each manifest path, the response the network served for it. *)
Theorem precache_stored env env' st p :
  (∀ q, q ∈ PRECACHE_URLS → precacheable env q) →
  p ∈ PRECACHE_URLS →
  ∃ r, network env (request_of_path env p) = Served r ∧ ok r = true ∧
    active_lookup (url (request_of_path env p))
      (activate env' (install env st).1.2).1.2 = Some r.
Proof.
  intros Hall Hp.
  destruct (precache_complete env env' st p Hall Hp) as (r & Hr & Hl).
  exists r. split_and!; [done| |done].
  destruct (Hall p Hp) as (r' & Hr' & Hok & _). congruence.
Qed.

Lemma env_online_precacheable q : precacheable env_online q.
Proof. by exists found_response. Qed.

Lemma precache_stored_witness :
  "/static/js/main.js" ∈ PRECACHE_URLS ∧
  ∃ r, network env_online (request_of_path env_online "/static/js/main.js")
       = Served r ∧ ok r = true ∧
    active_lookup (url (request_of_path env_online "/static/js/main.js"))
      (activate env_offline (install env_online stale_storage).1.2).1.2 = Some r.
Proof.
  assert (H : "/static/js/main.js" ∈ PRECACHE_URLS).
  { unfold PRECACHE_URLS. do 2 right. by left. }
  split; [exact H|].
  exact (precache_stored env_online env_offline stale_storage "/static/js/main.js"
           (λ q _, env_online_precacheable q) H).
Defined.

(** X7. Install only ever writes manifest entries into the current
    generation: every entry of another generation (the previous version's
    cache is still complete until activation) and every entry for a URL
    outside the manifest reads the same before and after, whether or not
    precaching succeeds. *)
Theorem install_frame env st name k :
  name ≠ CACHE_NAME ∨ k ∉ map url (precache_requests env) →
  gen_lookup name k (install env st).1.2 = gen_lookup name k st.
Proof.
  intros Hne.
  destruct (all_ok (map (network env) (precache_requests env))) as [resps|] eqn:Hall.
  - rewrite (install_precached _ _ resps Hall). cbn [fst snd].
    rewrite gen_lookup_put_batch_other, gen_lookup_open; [done|].
    destruct Hne as [Hne|Hne]; [by left|right].
    rewrite combine_keys; [done|].
    apply all_ok_length in Hall.
    rewrite <- (length_map (network env)), Hall. by rewrite length_map.
  - rewrite (install_failed _ _ Hall). cbn [fst snd]. apply gen_lookup_open.
Qed.

Lemma install_frame_witness :
  "logisfit-v0" ≠ CACHE_NAME ∧
  gen_lookup "logisfit-v0" (url page_request)
    (install env_online stale_storage).1.2 = Some found_response.
Proof.
  assert (H : "logisfit-v0" ≠ CACHE_NAME) by discriminate.
  split; [exact H|].
  rewrite (install_frame env_online stale_storage "logisfit-v0"
             (url page_request) (or_introl H)).
  unfold gen_lookup, stale_storage. simpl. apply lookup_singleton_eq.
Defined.

Lemma serving_from_serving st0 st : serving_from st0 st → serving st.
Proof. induction 1; by constructor. Qed.

Lemma stored_activate env st n k r :
  stored (activate env st).1.2 n k r → stored st n k r.
Proof.
  rewrite activate_run. cbn [fst snd]. intros (c & Hin & Hk). exists c.
  split; [|done]. apply list_elem_of_In, filter_In in Hin as [Hin _].
  by apply list_elem_of_In.
Qed.

Lemma stored_handle rq env st n k r :
  stored (handle rq env st).1.2 n k r → stored st n k r ∨ ok r = true.
Proof.
  destruct (handle_storage rq env st) as [->|[->|(r' & _ & Hok & ->)]];
    [by left| |by apply stored_one_put].
  intros H. left. by apply stored_open in H.
Qed.

(** X8. Once the worker has been installed and activated, and however many
    fetch events it has handled since, the storage holds no cache of another
    version; and if every response stored before installation had a success
    status, so has every response stored now. *)
Theorem serving_invariant st0 st :
  serving_from st0 st →
  (∀ n c, (n, c) ∈ st → n = CACHE_NAME) ∧
  ((∀ n k r, stored st0 n k r → ok r = true) →
   ∀ n k r, stored st n k r → ok r = true).
Proof.
  intros Hs. split.
  - intros n c Hin. apply serving_from_serving, serving_activated in Hs.
    unfold activated in Hs. rewrite Forall_forall in Hs. by apply (Hs (n, c)).
  - intros H0. induction Hs as [env1 env2|st rq env _ IH]; intros n k r Hst.
    + apply stored_activate in Hst.
      destruct (proj2 (install_stores_only_success env1 st0) n k r Hst); auto.
      by apply (H0 n k).
    + apply stored_handle in Hst as [Hst|Hok]; [|done]. by apply (IH n k).
Qed.

Lemma serving_invariant_witness :
  serving_from stale_storage
    (handle page_request env_missing
       (activate env_online (install env_offline stale_storage).1.2).1.2).1.2 ∧
  ∀ n c,
    (n, c) ∈ (handle page_request env_missing
                (activate env_online (install env_offline stale_storage).1.2).1.2).1.2 →
    n = CACHE_NAME.
Proof.
  assert (H : serving_from stale_storage
    (handle page_request env_missing
       (activate env_online (install env_offline stale_storage).1.2).1.2).1.2).
  { apply serving_from_next, serving_from_fresh. }
  split; [exact H|].
  exact (proj1 (serving_invariant stale_storage _ H)).
Defined.

(** ** The allowlist test *)

Lemma prefix_app (t post : string) : String.prefix t (t +:+ post) = true.
Proof.
  induction t as [|c t IH]; [by destruct post|].
  change (String.prefix (String c t) (String c t +:+ post))
    with (if ascii_dec c c then String.prefix t (t +:+ post) else false).
  by destruct (ascii_dec c c).
Qed.

Lemma prefix_inv (t s : string) :
  String.prefix t s = true → ∃ post, s = t +:+ post.
Proof.
  revert s. induction t as [|c t IH]; intros s; simpl.
  - intros _. by exists s.
  - destruct s as [|d s]; [done|].
    change (String.prefix (String c t) (String d s))
      with (if ascii_dec c d then String.prefix t s else false).
    destruct (ascii_dec c d) as [->|]; [|done].
    intros H. apply IH in H as [post ->]. by exists post.
Qed.

Lemma includes_prefix (s t : string) :
  String.prefix t s = true → includes s t = true.
Proof. destruct s; cbn [includes]; by intros ->. Qed.

Lemma includes_substring (s t : string) :
  includes s t = true ↔ ∃ pre post, s = pre +:+ t +:+ post.
Proof.
  split.
  - induction s as [|c s IH]; cbn [includes].
    + rewrite orb_false_r. intros H. apply prefix_inv in H as [post ->].
      by exists "", post.
    + intros H. apply orb_true_iff in H as [H|H].
      * apply prefix_inv in H as [post ->]. by exists "", post.
      * apply IH in H as (pre & post & ->). by exists (String c pre), post.
  - intros (pre & post & ->). induction pre as [|c pre IH].
    + apply includes_prefix. apply (prefix_app t post).
    + change (String c pre +:+ t +:+ post) with (String c (pre +:+ t +:+ post)).
      cbn [includes]. rewrite IH. apply orb_true_r.
Qed.

(** X9. The allowlist is a substring test: a GET request outside /api/ is
    handled as a third-party asset exactly when its hostname contains one of
    the CDN hosts somewhere inside it, so also when the hostname merely
    embeds an allowlisted name. *)
Theorem allowlist_is_substring_test rq :
  method rq = "GET" →
  startsWith (pathname (url rq)) "/api/" = false →
  (classify rq = ThirdPartyAsset ↔
   ∃ host pre post, host ∈ CDN_HOSTS ∧
     hostname (url rq) = pre +:+ host +:+ post).
Proof.
  intros Hm Hapi. unfold classify. rewrite Hm, Hapi. cbn [String.eqb negb].
  replace (("GET" =? "GET")%string) with true by reflexivity. cbn [negb].
  destruct (existsb _ CDN_HOSTS) eqn:E.
  - split; [intros _|done]. apply existsb_exists in E as (host & Hin & Hinc).
    apply includes_substring in Hinc as (pre & post & ->).
    exists host, pre, post. split; [by apply list_elem_of_In|done].
  - split.
    + by destruct (startsWith _ "/static/").
    + intros (host & pre & post & Hin & Heq). exfalso.
      apply not_true_iff_false in E. apply E. apply existsb_exists.
      exists host. split; [by apply list_elem_of_In|].
      apply includes_substring. by exists pre, post.
Qed.

Lemma allowlist_is_substring_test_witness :
  classify (request_to "GET" "fonts.gstatic.com.attacker.example" "/x.js")
    = ThirdPartyAsset.
Proof.
  apply (proj2 (allowlist_is_substring_test
                  (request_to "GET" "fonts.gstatic.com.attacker.example" "/x.js")
                  eq_refl eq_refl)).
  exists "fonts.gstatic.com", "", ".attacker.example".
  split; [|reflexivity]. unfold CDN_HOSTS. do 2 right. by left.
Defined.

(** ** The application shell offline, and repeated failures *)

Lemma classify_non_cacheable rq :
  classify rq = NonCacheable →
  method rq ≠ "GET" ∨ startsWith (pathname (url rq)) "/api/" = true.
Proof.
  unfold classify.
  destruct (String.eqb (method rq) "GET") eqn:Em; cbn [negb].
  - destruct (startsWith (pathname (url rq)) "/api/"); [by right|].
    destruct (existsb _ CDN_HOSTS); [done|].
    by destruct (startsWith (pathname (url rq)) "/static/").
  - intros _. left. by apply String.eqb_neq.
Qed.

Lemma manifest_outside_api p :
  p ∈ PRECACHE_URLS → startsWith p "/api/" = false.
Proof.
  unfold PRECACHE_URLS. intros Hp.
  repeat (apply elem_of_cons in Hp as [->|Hp]; [reflexivity|]).
  by apply elem_of_nil in Hp.
Qed.

(** X10. The application shell works offline: when every manifest resource
    was answered at install time with a success status and a response the
    cache accepts (not a 206, no Vary header naming the star), then after activation a request for any
    manifest path, made while the network is unreachable, is answered with
    the response that was served for it at install time, whichever strategy
    the request falls under. *)
Theorem precached_served_offline env env1 env' st p :
  (∀ q, q ∈ PRECACHE_URLS → precacheable env q) →
  p ∈ PRECACHE_URLS →
  network env' (request_of_path env p) = NetworkError →
  ∃ r, network env (request_of_path env p) = Served r ∧
    (handle (request_of_path env p) env'
       (activate env1 (install env st).1.2).1.2).1.1 = Fulfilled r.
Proof.
  intros Hall Hp Hdown.
  destruct (precache_complete env env1 st p Hall Hp) as (r & Hr & Hl).
  exists r. split; [done|].
  apply storage_match_activated in Hl; [|apply activate_activated].
  set (st' := (activate env1 (install env st).1.2).1.2) in *.
  set (rq := request_of_path env p) in *.
  unfold handle. rewrite fetch_listener_classify.
  destruct (classify rq) eqn:Hc; simpl.
  - apply classify_non_cacheable in Hc as [Hc|Hc]; [done|].
    unfold rq in Hc. simpl in Hc. by rewrite manifest_outside_api in Hc.
  - by rewrite (cacheFirst_hit _ _ _ r Hl).
  - by rewrite (cacheFirst_hit _ _ _ r Hl).
  - rewrite networkFirst_offline by done. by rewrite Hl.
Qed.

Lemma precached_served_offline_witness :
  "/" ∈ PRECACHE_URLS ∧
  network env_offline (request_of_path env_online "/") = NetworkError ∧
  ∃ r, network env_online (request_of_path env_online "/") = Served r ∧
    (handle (request_of_path env_online "/") env_offline
       (activate env_online (install env_online []).1.2).1.2).1.1 = Fulfilled r.
Proof.
  assert (H : "/" ∈ PRECACHE_URLS) by (by left).
  split; [exact H|]. split; [reflexivity|].
  exact (precached_served_offline env_online env_online env_offline [] "/"
           (λ q _, env_online_precacheable q) H eq_refl).
Defined.

(** X11. Failures are never cached under Cache-First: while an asset is not
    in the cache and its live fetch keeps failing (network unreachable or
    non-success status), every call goes to the network again, one fetch
    per call, and the storage stays as it is. *)
Theorem failures_not_cached rq st envs :
  cache_first_category (classify rq) = true →
  storage_match (url rq) st = None →
  Forall (λ env, fetch_fails env rq) envs →
  ∃ os evs, handle_each rq envs st = (os, st, evs) ∧
    network_calls evs = length envs.
Proof.
  intros Hc Hm. induction 1 as [|env envs Hf _ IH]; simpl.
  - by exists [], [].
  - destruct IH as (os & evs & Heq & Hcalls).
    rewrite (handle_cache_first rq Hc).
    destruct Hf as [Hn|(r & Hn & Hok)].
    + rewrite (cacheFirst_unreachable _ _ _ Hm Hn), Heq. do 2 eexists.
      split; [reflexivity|]. rewrite network_calls_app, Hcalls. reflexivity.
    + rewrite (cacheFirst_bad_status _ _ _ r Hm Hn Hok), Heq. do 2 eexists.
      split; [reflexivity|]. rewrite network_calls_app, Hcalls. reflexivity.
Qed.

Lemma failures_not_cached_witness :
  cache_first_category (classify asset_request) = true ∧
  Forall (λ env, fetch_fails env asset_request) [env_offline; env_missing] ∧
  ∃ os evs,
    handle_each asset_request [env_offline; env_missing] [] = (os, [], evs) ∧
    network_calls evs = 2%nat.
Proof.
  assert (H : Forall (λ env, fetch_fails env asset_request)
                [env_offline; env_missing]).
  { apply Forall_cons. split; [by left|].
    apply Forall_cons. split; [|constructor].
    right. by exists missing_response. }
  split; [reflexivity|]. split; [exact H|].
  exact (failures_not_cached asset_request [] [env_offline; env_missing]
           eq_refl eq_refl H).
Defined.


(** ** The input masks *)

Section Masks.
Implicit Types (ds value input : list N).

Lemma strip_non_digits_app value1 value2 :
  strip_non_digits (value1 ++ value2)
  = strip_non_digits value1 ++ strip_non_digits value2.
Proof. apply List.filter_app. Qed.

Lemma strip_non_digits_digits input :
  Forall (λ c, is_digit c = true) (strip_non_digits input).
Proof.
  apply Forall_forall. intros c Hc.
  by apply list_elem_of_In, filter_In in Hc as [_ Hc].
Qed.

Lemma strip_non_digits_id ds :
  Forall (λ c, is_digit c = true) ds → strip_non_digits ds = ds.
Proof.
  unfold strip_non_digits. induction 1 as [|c ds Hc _ IH]; simpl; [done|].
  by rewrite Hc, IH.
Qed.

Lemma format_business_number_grouped input :
  format_business_number input = grouped 3 5 (take 10 (strip_non_digits input)).
Proof.
  unfold format_business_number, grouped, slice, slice_from.
  destruct (10 <? length (strip_non_digits input))%nat eqn:E; simpl; [done|].
  apply Nat.ltb_ge in E. by rewrite (take_ge _ 10).
Qed.

Lemma format_phone_grouped input :
  format_phone input = grouped 3 7 (take 11 (strip_non_digits input)).
Proof.
  unfold format_phone, grouped, slice, slice_from.
  destruct (11 <? length (strip_non_digits input))%nat eqn:E; simpl; [done|].
  apply Nat.ltb_ge in E. by rewrite (take_ge _ 11).
Qed.

Lemma grouped_digits a b ds :
  (a ≤ b)%nat →
  Forall (λ c, is_digit c = true) ds →
  strip_non_digits (grouped a b ds) = ds.
Proof.
  intros Hab Hds. unfold grouped.
  destruct (b <? length ds)%nat; [|destruct (a <? length ds)%nat].
  - rewrite !strip_non_digits_app.
    change (strip_non_digits [hyphen]) with (@nil N). simpl.
    rewrite !strip_non_digits_id
      by (by repeat first [apply Forall_take | apply Forall_drop]).
    replace (drop b ds) with (drop (b - a) (drop a ds))
      by (rewrite drop_drop; f_equal; lia).
    by rewrite take_drop, take_drop.
  - rewrite !strip_non_digits_app.
    change (strip_non_digits [hyphen]) with (@nil N). simpl.
    rewrite !strip_non_digits_id
      by (by repeat first [apply Forall_take | apply Forall_drop]).
    by rewrite take_drop.
  - by apply strip_non_digits_id.
Qed.

Lemma grouped_length a b ds :
  (a ≤ b)%nat →
  length (grouped a b ds) = (length ds + separators a b (length ds))%nat.
Proof.
  intros Hab. unfold grouped, separators.
  destruct (b <? length ds)%nat eqn:Eb; [|destruct (a <? length ds)%nat eqn:Ea].
  - apply Nat.ltb_lt in Eb.
    rewrite !length_app, !length_take, !length_drop. simpl. lia.
  - apply Nat.ltb_lt in Ea.
    rewrite !length_app, !length_take, !length_drop. simpl. lia.
  - lia.
Qed.

Lemma grouped_chars a b ds :
  Forall (λ c, is_digit c = true) ds →
  Forall (λ c, is_digit c = true ∨ c = hyphen) (grouped a b ds).
Proof.
  intros Hds.
  assert (Hw : ∀ l, Forall (λ c, is_digit c = true) l →
                    Forall (λ c, is_digit c = true ∨ c = hyphen) l).
  { intros l Hl. eapply Forall_impl; [exact Hl|]. intros c Hc. by left. }
  assert (Hh : Forall (λ c, is_digit c = true ∨ c = hyphen) [hyphen]).
  { constructor; [by right|constructor]. }
  unfold grouped.
  destruct (b <? length ds)%nat; [|destruct (a <? length ds)%nat].
  - repeat (apply Forall_app; split); try done;
      apply Hw; by repeat first [apply Forall_take | apply Forall_drop].
  - repeat (apply Forall_app; split); try done;
      apply Hw; by repeat first [apply Forall_take | apply Forall_drop].
  - by apply Hw.
Qed.

Lemma grouped_last a b ds :
  Forall (λ c, is_digit c = true) ds →
  last (grouped a b ds) ≠ Some hyphen.
Proof.
  intros Hds. unfold grouped.
  assert (Hlast : ∀ l, Forall (λ c, is_digit c = true) l → last l ≠ Some hyphen).
  { intros l Hl Heq. apply last_Some in Heq as [l' ->].
    apply Forall_app in Hl as [_ Hl]. by inversion Hl. }
  destruct (b <? length ds)%nat eqn:Eb; [|destruct (a <? length ds)%nat eqn:Ea].
  - apply Nat.ltb_lt in Eb.
    rewrite !app_assoc. rewrite last_app.
    destruct (last (drop b ds)) eqn:El.
    + rewrite <- El. apply Hlast. by apply Forall_drop.
    + apply last_None in El. apply (f_equal length) in El.
      rewrite length_drop in El. simpl in El. lia.
  - apply Nat.ltb_lt in Ea.
    rewrite !app_assoc. rewrite last_app.
    destruct (last (drop a ds)) eqn:El.
    + rewrite <- El. apply Hlast. by apply Forall_drop.
    + apply last_None in El. apply (f_equal length) in El.
      rewrite length_drop in El. simpl in El. lia.
  - by apply Hlast.
Qed.
End Masks.

Lemma take_take_app (n : nat) (l k : list N) :
  take n (take n l ++ k) = take n (l ++ k).
Proof.
  destruct (decide (length l ≤ n)%nat) as [Hle|Hgt].
  - by rewrite (take_ge l n).
  - rewrite (take_app_le l k n) by lia.
    rewrite take_app_le by (rewrite length_take; lia).
    rewrite take_take. f_equal. lia.
Qed.

(** X12. The business-number mask keeps the typed digits, in order, up to
    the tenth, and drops everything else: reading the digits back from the
    field gives the first ten digits of what was typed. *)
Theorem business_number_digits input :
  strip_non_digits (format_business_number input)
  = take 10 (strip_non_digits input).
Proof.
  rewrite format_business_number_grouped. apply grouped_digits; [lia|].
  apply Forall_take, strip_non_digits_digits.
Qed.

(** X13. The business-number mask is stable under its own output: a field
    value that was already formatted, with further characters typed after
    it, formats to the same text as the raw keystrokes would; in particular
    formatting twice is formatting once. *)
Theorem business_number_stable input typed :
  format_business_number (format_business_number input ++ typed)
  = format_business_number (input ++ typed) ∧
  format_business_number (format_business_number input)
  = format_business_number input.
Proof.
  assert (H : ∀ more, format_business_number (format_business_number input ++ more)
                      = format_business_number (input ++ more)).
  { intros more. rewrite !(format_business_number_grouped (_ ++ _)).
    rewrite !strip_non_digits_app.
    rewrite (format_business_number_grouped input).
    rewrite grouped_digits
      by (lia || apply Forall_take, strip_non_digits_digits).
    by rewrite take_take_app. }
  split; [apply H|].
  rewrite <- (app_nil_r (format_business_number input)) at 1.
  by rewrite H, app_nil_r.
Qed.

(** X14. The text the business-number mask produces consists of digits and
    hyphens only, never ends in a hyphen, and has one character per kept
    digit plus one hyphen once a fourth digit is typed and a second one once
    a sixth is typed, so at most twelve characters. *)
Theorem business_number_shape input :
  Forall (λ c, is_digit c = true ∨ c = hyphen) (format_business_number input) ∧
  last (format_business_number input) ≠ Some hyphen ∧
  length (format_business_number input)
  = (length (take 10 (strip_non_digits input))
     + separators 3 5 (length (take 10 (strip_non_digits input))))%nat ∧
  (length (format_business_number input) ≤ 12)%nat.
Proof.
  rewrite format_business_number_grouped.
  assert (Hd : Forall (λ c, is_digit c = true) (take 10 (strip_non_digits input)))
    by apply Forall_take, strip_non_digits_digits.
  split_and!.
  - by apply grouped_chars.
  - by apply grouped_last.
  - apply grouped_length. lia.
  - rewrite grouped_length by lia. unfold separators.
    rewrite length_take.
    destruct (5 <? _)%nat; [|destruct (3 <? _)%nat]; lia.
Qed.

(** X15. The phone mask keeps the typed digits, in order, up to the
    eleventh, and drops everything else. *)
Theorem phone_digits input :
  strip_non_digits (format_phone input) = take 11 (strip_non_digits input).
Proof.
  rewrite format_phone_grouped. apply grouped_digits; [lia|].
  apply Forall_take, strip_non_digits_digits.
Qed.

(** X16. The phone mask is stable under its own output: an already
    formatted value with further characters typed after it formats to the
    same text as the raw keystrokes; formatting twice is formatting once. *)
Theorem phone_stable input typed :
  format_phone (format_phone input ++ typed) = format_phone (input ++ typed) ∧
  format_phone (format_phone input) = format_phone input.
Proof.
  assert (H : ∀ more, format_phone (format_phone input ++ more)
                      = format_phone (input ++ more)).
  { intros more. rewrite !(format_phone_grouped (_ ++ _)).
    rewrite !strip_non_digits_app.
    rewrite (format_phone_grouped input).
    rewrite grouped_digits
      by (lia || apply Forall_take, strip_non_digits_digits).
    by rewrite take_take_app. }
  split; [apply H|].
  rewrite <- (app_nil_r (format_phone input)) at 1.
  by rewrite H, app_nil_r.
Qed.

(** X17. The text the phone mask produces consists of digits and hyphens
    only, never ends in a hyphen, and has one character per kept digit plus
    one hyphen once a fourth digit is typed and a second one once an eighth
    is typed, so at most thirteen characters. *)
Theorem phone_shape input :
  Forall (λ c, is_digit c = true ∨ c = hyphen) (format_phone input) ∧
  last (format_phone input) ≠ Some hyphen ∧
  length (format_phone input)
  = (length (take 11 (strip_non_digits input))
     + separators 3 7 (length (take 11 (strip_non_digits input))))%nat ∧
  (length (format_phone input) ≤ 13)%nat.
Proof.
  rewrite format_phone_grouped.
  assert (Hd : Forall (λ c, is_digit c = true) (take 11 (strip_non_digits input)))
    by apply Forall_take, strip_non_digits_digits.
  split_and!.
  - by apply grouped_chars.
  - by apply grouped_last.
  - apply grouped_length. lia.
  - rewrite grouped_length by lia. unfold separators.
    rewrite length_take.
    destruct (7 <? _)%nat; [|destruct (3 <? _)%nat]; lia.
Qed.

Example business_number_sample :
  format_business_number (js "1234567890") = js "123-45-67890" ∧
  format_business_number (js "12a34") = js "123-4" ∧
  format_business_number (js "123") = js "123" ∧
  format_phone (js "01012345678") = js "010-1234-5678" ∧
  format_phone (js "010-1234-56789999") = js "010-1234-5678".
Proof. split_and!; reflexivity. Qed.


(** ** Cookie lookup *)

Section Cookies.
Variable decodeURIComponent : list N → option (list N).
Implicit Types (s name piece value : list N) (segs : list (list N)).

Lemma split_on_plain sep s : sep ∉ s → split_on sep s = [s].
Proof.
  induction s as [|c s IH]; [done|]. intros Hs.
  apply not_elem_of_cons in Hs as [Hc Hs]. simpl.
  destruct (N.eqb_spec c sep) as [->|_]; [done|]. by rewrite IH.
Qed.

Lemma split_on_app sep s t :
  sep ∉ s → split_on sep (s ++ sep :: t) = s :: split_on sep t.
Proof.
  induction s as [|c s IH]; intros Hs; simpl.
  - by rewrite N.eqb_refl.
  - apply not_elem_of_cons in Hs as [Hc Hs].
    destruct (N.eqb_spec c sep) as [->|_]; [done|]. by rewrite IH.
Qed.

Lemma split_on_join sep segs :
  segs ≠ [] → Forall (λ seg, sep ∉ seg) segs →
  split_on sep (join_with sep segs) = segs.
Proof.
  induction segs as [|seg rest IH]; [done|]. intros _ Hall.
  apply Forall_cons in Hall as [Hseg Hrest].
  destruct rest as [|seg' rest].
  - simpl. by apply split_on_plain.
  - change (join_with sep (seg :: seg' :: rest))
      with (seg ++ sep :: join_with sep (seg' :: rest)).
    rewrite split_on_app by done. f_equal. by apply IH.
Qed.

Lemma cookie_test name cookie :
  take (length name + 1) cookie = name ++ [equals_sign]
  ↔ ∃ value, cookie = name ++ equals_sign :: value.
Proof.
  split.
  - intros H. exists (drop (length name + 1) cookie).
    rewrite <- (take_drop (length name + 1) cookie) at 1. rewrite H.
    by rewrite <- app_assoc.
  - intros [value ->].
    rewrite (cons_middle equals_sign), app_assoc.
    rewrite take_app_length'; [done|]. rewrite length_app. simpl. lia.
Qed.

Lemma getCookie_pieces segs name :
  Forall (λ seg, semicolon ∉ seg) segs →
  getCookie decodeURIComponent (join_with semicolon segs) name
  = cookie_loop decodeURIComponent name segs.
Proof.
  intros Hall. unfold getCookie.
  destruct (join_with semicolon segs) as [|c s] eqn:Hj.
  - destruct segs as [|seg [|seg' rest]]; [done| |].
    + simpl in Hj. subst. cbn [cookie_loop].
      rewrite bool_decide_eq_false_2; [done|].
      intros H. apply cookie_test in H as [v H].
      change (trim []) with (@nil N) in H. by destruct name.
    + exfalso. simpl in Hj. by destruct seg.
  - rewrite <- Hj. rewrite split_on_join; [done| |done].
    intros ->. done.
Qed.

Lemma cookie_loop_skip name before rest :
  Forall (λ piece, ∀ value, trim piece ≠ name ++ equals_sign :: value) before →
  cookie_loop decodeURIComponent name (before ++ rest)
  = cookie_loop decodeURIComponent name rest.
Proof.
  induction 1 as [|piece before Hp _ IH]; [done|]. simpl.
  rewrite bool_decide_eq_false_2; [done|].
  intros H. apply cookie_test in H as [value H]. by apply (Hp value).
Qed.

(** X18. [getCookie] returns the value of the first cookie of that name:
    when [document.cookie] lists pieces separated by semicolons, none of the
    pieces before one is the name followed by ['='], and that one, trimmed,
    is the name, ['='] and a value, the result is the decoded value, later
    pieces being ignored; it throws, instead, when the value does not
    decode. *)
Theorem getCookie_first_match name before piece after value :
  Forall (λ seg, semicolon ∉ seg) (before ++ piece :: after) →
  Forall (λ seg, ∀ v, trim seg ≠ name ++ equals_sign :: v) before →
  trim piece = name ++ equals_sign :: value →
  getCookie decodeURIComponent
    (join_with semicolon (before ++ piece :: after)) name
  = match decodeURIComponent value with
    | Some decoded => Returns (Some decoded)
    | None => Throws
    end.
Proof.
  intros Hsep Hbefore Hpiece.
  rewrite getCookie_pieces by done. rewrite cookie_loop_skip by done.
  simpl. rewrite Hpiece.
  rewrite bool_decide_eq_true_2 by (apply cookie_test; by exists value).
  rewrite (cons_middle equals_sign), app_assoc.
  rewrite drop_app_length'; [done|]. rewrite length_app. simpl. lia.
Qed.

(** X19. [getCookie] returns null, and decodes nothing, when no piece of
    [document.cookie] is, once trimmed, the name followed by ['=']: so for
    the empty cookie string, and also when the name is only the beginning of
    another cookie's name. *)
Theorem getCookie_absent name segs :
  Forall (λ seg, semicolon ∉ seg) segs →
  Forall (λ seg, ∀ v, trim seg ≠ name ++ equals_sign :: v) segs →
  getCookie decodeURIComponent (join_with semicolon segs) name = Returns None.
Proof.
  intros Hsep Hnone. rewrite getCookie_pieces by done.
  rewrite <- (app_nil_r segs). by rewrite cookie_loop_skip.
Qed.
End Cookies.

Ltac decide_now := apply (bool_decide_unpack _); vm_compute; exact I.

Lemma getCookie_first_match_witness :
  getCookie Some (js "csrftoken2=x; csrftoken=y; other=1") (js "csrftoken")
  = Returns (Some (js "y")).
Proof.
  apply (getCookie_first_match Some (js "csrftoken")
           [js "csrftoken2=x"] (js " csrftoken=y") [js " other=1"] (js "y")).
  - repeat (apply Forall_cons; split; [decide_now|]). constructor.
  - apply Forall_cons. split; [|constructor].
    intros v H. vm_compute in H. simplify_eq.
  - reflexivity.
Defined.

Lemma getCookie_absent_witness :
  getCookie Some (js "csrftoken2=x; sessionid=abc") (js "csrftoken")
  = Returns None.
Proof.
  apply (getCookie_absent Some (js "csrftoken")
           [js "csrftoken2=x"; js " sessionid=abc"]).
  - repeat (apply Forall_cons; split; [decide_now|]). constructor.
  - repeat (apply Forall_cons; split;
            [intros v H; vm_compute in H; simplify_eq|]).
    constructor.
Defined.

(** X20. Precached static files are never fetched again: when every manifest
    resource was answered at install time with a success status and a
    response the cache accepts (not a 206, no Vary header naming the star), then after
    activation a request
    for a manifest path under /static/ is answered with the response stored
    at install time, without any network call and whatever the network
    would serve now. *)
Theorem precached_static_never_refetched env env1 env' st p :
  (∀ q, q ∈ PRECACHE_URLS → precacheable env q) →
  p ∈ PRECACHE_URLS →
  startsWith p "/static/" = true →
  ∃ r, network env (request_of_path env p) = Served r ∧
    handle (request_of_path env p) env'
      (activate env1 (install env st).1.2).1.2
    = (Fulfilled r, (activate env1 (install env st).1.2).1.2,
       [ECachesMatch (url (request_of_path env p))]).
Proof.
  intros Hall Hp Hstatic.
  destruct (precache_complete env env1 st p Hall Hp) as (r & Hr & Hl).
  exists r. split; [done|].
  apply storage_match_activated in Hl; [|apply activate_activated].
  rewrite handle_cache_first; [by apply cacheFirst_hit|].
  unfold classify. cbn [request_of_path method url pathname hostname].
  replace (negb ("GET" =? "GET")%string) with false by reflexivity.
  rewrite (manifest_outside_api p Hp), Hstatic.
  by destruct (existsb _ CDN_HOSTS).
Qed.

Lemma precached_static_never_refetched_witness :
  "/static/css/style.css" ∈ PRECACHE_URLS ∧
  startsWith "/static/css/style.css" "/static/" = true ∧
  ∃ r, network env_online (request_of_path env_online "/static/css/style.css")
       = Served r ∧
    handle (request_of_path env_online "/static/css/style.css") env_missing
      (activate env_online (install env_online []).1.2).1.2
    = (Fulfilled r, (activate env_online (install env_online []).1.2).1.2,
       [ECachesMatch (url (request_of_path env_online "/static/css/style.css"))]).
Proof.
  assert (H : "/static/css/style.css" ∈ PRECACHE_URLS).
  { unfold PRECACHE_URLS. right. by left. }
  split; [exact H|]. split; [reflexivity|].
  exact (precached_static_never_refetched env_online env_online env_missing []
           "/static/css/style.css" (λ q _, env_online_precacheable q) H eq_refl).
Defined.


(** ** The request classifier, rule by rule *)








(** ** The two strategies and what the cache accepts *)

Lemma storage_match_first_hit k st c :
  first_hit k st c → storage_match k st = Some c.
Proof.
  intros (older & name & m & newer & -> & Holder & Hm).
  induction Holder as [|[n m'] older Hg _ IH]; simpl.
  - by rewrite Hm.
  - simpl in Hg. by rewrite Hg.
Qed.

Lemma storage_match_uncached k st :
  uncached k st → storage_match k st = None.
Proof.
  induction 1 as [|[n m] st Hg _ IH]; simpl; [done|].
  simpl in Hg. by rewrite Hg.
Qed.

(** C1, as stated, fails: a navigational request whose live fetch resolves
    with a partial response (status 206, a success status) gets that
    response, but the cache refuses it and the current generation holds
    nothing for the request afterwards. *)
Lemma network_first_partial_counterexample :
  classify page_request = Navigational ∧
  network env_partial page_request = Served partial_response ∧
  ok partial_response = true ∧
  handle page_request env_partial [] =
    (Fulfilled partial_response, [(CACHE_NAME, ∅)],
     [EFetch page_request; ECachesOpen CACHE_NAME;
      ECachePut CACHE_NAME (url page_request) partial_response]) ∧
  active_lookup (url page_request) (handle page_request env_partial []).1.2
    = None.
Proof. split_and!; reflexivity. Qed.

(** C1, amended. For a navigational request the first platform call of
    [handle] is the live fetch of that request. When the fetch resolves with
    a success status, the live response is returned; it is stored under the
    request's URL in the active generation when the cache accepts it (its
    status is not 206 and its Vary header does not name the star), and otherwise
    nothing is stored. When the fetch rejects, the cached response for the
    URL, the one of the oldest cache that has one, is returned if there is
    one, and the offline page if no cache has one. *)
Theorem network_first_strategy rq env st :
  classify rq = Navigational →
  (∃ o st' evs, handle rq env st = (o, st', EFetch rq :: evs)) ∧
  (∀ r, network env rq = Served r → ok r = true →
     (storable r = true →
        ∃ st', handle rq env st =
                 (Fulfilled r, st',
                  [EFetch rq; ECachesOpen CACHE_NAME;
                   ECachePut CACHE_NAME (url rq) r])
               ∧ st' = storage_put CACHE_NAME (url rq) r
                         (storage_open CACHE_NAME st)
               ∧ active_lookup (url rq) st' = Some r) ∧
     (storable r = false →
        ∃ st', handle rq env st =
                 (Fulfilled r, st',
                  [EFetch rq; ECachesOpen CACHE_NAME;
                   ECachePut CACHE_NAME (url rq) r])
               ∧ ∀ name k, gen_lookup name k st' = gen_lookup name k st)) ∧
  (network env rq = NetworkError →
     (∀ c, first_hit (url rq) st c →
        handle rq env st = (Fulfilled c, st, [EFetch rq; ECachesMatch (url rq)])) ∧
     (uncached (url rq) st →
        handle rq env st =
          (Fulfilled offline_response, st, [EFetch rq; ECachesMatch (url rq)]))).
Proof.
  intros Hc. rewrite (handle_navigational rq Hc). split_and!.
  - destruct (network env rq) as [|r] eqn:Hn.
    + rewrite networkFirst_offline by done. eauto.
    + destruct (ok r) eqn:Hok; [destruct (storable r) eqn:Hst|].
      * rewrite (networkFirst_live _ _ _ r) by done. eauto.
      * rewrite (networkFirst_refused _ _ _ r) by done. eauto.
      * rewrite (networkFirst_bad_status _ _ _ r) by done. eauto.
  - intros r Hn Hok. split; intros Hst.
    + eexists. split_and!; [by apply networkFirst_live|done|].
      unfold active_lookup. apply storage_get_put, storage_has_open.
    + eexists. split; [by apply networkFirst_refused|].
      intros name k. apply gen_lookup_open.
  - intros Hn. split.
    + intros c Hm. apply storage_match_first_hit in Hm.
      rewrite networkFirst_offline by done. by rewrite Hm.
    + intros Hm. apply storage_match_uncached in Hm.
      rewrite networkFirst_offline by done. by rewrite Hm.
Qed.

Lemma cached_page_first_hit :
  first_hit (url page_request) cached_page_storage found_response.
Proof.
  exists [("other", ∅)], CACHE_NAME,
    {[ url page_request := found_response ]}, [].
  split_and!; [reflexivity| |apply lookup_singleton_eq].
  apply Forall_cons. split; [apply lookup_empty|constructor].
Qed.

Lemma network_first_strategy_witness :
  classify page_request = Navigational ∧
  network env_offline page_request = NetworkError ∧
  first_hit (url page_request) cached_page_storage found_response ∧
  handle page_request env_offline cached_page_storage =
    (Fulfilled found_response, cached_page_storage,
     [EFetch page_request; ECachesMatch (url page_request)]) ∧
  storable found_response = true ∧
  ∃ st', handle page_request env_online [] =
           (Fulfilled found_response, st',
            [EFetch page_request; ECachesOpen CACHE_NAME;
             ECachePut CACHE_NAME (url page_request) found_response])
         ∧ st' = storage_put CACHE_NAME (url page_request) found_response
                   (storage_open CACHE_NAME [])
         ∧ active_lookup (url page_request) st' = Some found_response.
Proof.
  do 2 (split; [reflexivity|]). split; [exact cached_page_first_hit|].
  split.
  - exact (proj1 (proj2 (proj2 (network_first_strategy page_request env_offline
                                  cached_page_storage eq_refl)) eq_refl)
             found_response cached_page_first_hit).
  - split; [reflexivity|].
    exact (proj1 (proj1 (proj2 (network_first_strategy page_request env_online
                                  [] eq_refl))
                    found_response eq_refl eq_refl) eq_refl).
Defined.

(** C2, as stated, fails: a static asset that is not cached and whose live
    fetch resolves with a partial response (status 206, a success status) is
    answered with it, but the cache refuses it, and the next call for the
    same request goes to the network again. *)
Lemma cache_first_partial_counterexample :
  cache_first_category (classify asset_request) = true ∧
  uncached (url asset_request) [] ∧
  network env_partial asset_request = Served partial_response ∧
  ok partial_response = true ∧
  handle asset_request env_partial [] =
    (Fulfilled partial_response, [(CACHE_NAME, ∅)],
     [ECachesMatch (url asset_request); EFetch asset_request;
      ECachesOpen CACHE_NAME;
      ECachePut CACHE_NAME (url asset_request) partial_response]) ∧
  active_lookup (url asset_request) (handle asset_request env_partial []).1.2
    = None ∧
  network_calls
    (handle asset_request env_partial
       (handle asset_request env_partial []).1.2).2 = 1%nat.
Proof. split_and!; try reflexivity. constructor. Qed.

(** C2, amended. For a static-asset or third-party-asset request: when the
    storage is as activation leaves it and the active generation holds a
    response for the request's URL, every call of [handle], whatever the
    network, returns exactly that stored response, makes no network call and
    leaves the storage as it is. When no cache holds a response for the URL
    and the live fetch resolves with a success status and a response the
    cache accepts (its status is not 206 and its Vary header does not name
    the star), [handle] returns the live response and stores it in the active
    generation, after which every further call for the same request returns
    it without any network call; a success response the cache does not
    accept is returned as well, and nothing is stored. *)
Theorem cache_first_round_trip rq :
  cache_first_category (classify rq) = true →
  (∀ st snap, activated st → active_lookup (url rq) st = Some snap →
     ∀ envs, ∃ evs,
       handle_each rq envs st = (map (λ _, Fulfilled snap) envs, st, evs) ∧
       network_calls evs = 0%nat) ∧
  (∀ st env r,
     uncached (url rq) st →
     network env rq = Served r → ok r = true →
     (storable r = true →
      ∃ st',
        handle rq env st =
          (Fulfilled r, st',
           [ECachesMatch (url rq); EFetch rq; ECachesOpen CACHE_NAME;
            ECachePut CACHE_NAME (url rq) r]) ∧
        active_lookup (url rq) st' = Some r ∧
        ∀ envs, ∃ evs,
          handle_each rq envs st' = (map (λ _, Fulfilled r) envs, st', evs) ∧
          network_calls evs = 0%nat) ∧
     (storable r = false →
      ∃ st',
        handle rq env st =
          (Fulfilled r, st',
           [ECachesMatch (url rq); EFetch rq; ECachesOpen CACHE_NAME;
            ECachePut CACHE_NAME (url rq) r]) ∧
        ∀ name k, gen_lookup name k st' = gen_lookup name k st)).
Proof.
  intros Hc. split.
  - intros st snap Ha Hl envs. eexists. split.
    + apply handle_each_hit; [done|]. by apply storage_match_activated.
    + apply network_calls_matches.
  - intros st env r Hm Hn Hok. apply storage_match_uncached in Hm.
    rewrite (handle_cache_first rq Hc). split; intros Hst.
    + eexists. split_and!.
      * by apply cacheFirst_live.
      * apply storage_get_put, storage_has_open.
      * intros envs. eexists. split; [|apply (network_calls_matches (url rq) envs)].
        apply handle_each_hit; [done|].
        apply storage_match_put_miss; [apply storage_has_open|].
        by rewrite storage_match_open.
    + eexists. split; [by apply cacheFirst_refused|].
      intros name k. apply gen_lookup_open.
Qed.

Lemma cache_first_round_trip_witness :
  cache_first_category (classify asset_request) = true ∧
  activated [(CACHE_NAME, {[ url asset_request := found_response ]})] ∧
  (∃ evs,
    handle_each asset_request [env_offline; env_missing; env_online]
      [(CACHE_NAME, {[ url asset_request := found_response ]})] =
      (map (λ _, Fulfilled found_response) [env_offline; env_missing; env_online],
       [(CACHE_NAME, {[ url asset_request := found_response ]})], evs) ∧
    network_calls evs = 0%nat) ∧
  uncached (url asset_request) [] ∧
  storable found_response = true ∧
  ∃ st',
    handle asset_request env_online [] =
      (Fulfilled found_response, st',
       [ECachesMatch (url asset_request); EFetch asset_request;
        ECachesOpen CACHE_NAME;
        ECachePut CACHE_NAME (url asset_request) found_response]) ∧
    active_lookup (url asset_request) st' = Some found_response ∧
    ∀ envs, ∃ evs,
      handle_each asset_request envs st' =
        (map (λ _, Fulfilled found_response) envs, st', evs) ∧
      network_calls evs = 0%nat.
Proof.
  split; [reflexivity|]. split; [by repeat constructor|]. split.
  - apply (proj1 (cache_first_round_trip asset_request eq_refl)
             [(CACHE_NAME, {[ url asset_request := found_response ]})]
             found_response).
    + by repeat constructor.
    + by vm_compute.
  - split; [constructor|]. split; [reflexivity|].
    exact (proj1 (proj2 (cache_first_round_trip asset_request eq_refl)
                    [] env_online found_response
                    (Forall_nil_2 _) eq_refl eq_refl) eq_refl).
Defined.

(** What the cache accepts, on samples: a plain 200 response, also one that
    varies on named headers only; not a partial response, and not one whose
    Vary header, in any letter case, names the star among its values. *)
Example storable_samples :
  storable found_response = true ∧
  storable (mkResponse 200 [("Vary", "Accept-Encoding, Origin")] "") = true ∧
  storable partial_response = false ∧
  storable vary_response = false ∧
  storable (mkResponse 200 [("vary", " * ")] "") = false.
Proof. split_and!; reflexivity. Qed.
